(** * Destination prediction by a bidirectional recurrent memory network

    A shallow embedding of [model/memory_network_bidir.py]: the
    [RecurrentEncoder] brick and the [Model] that compares a batch of trip
    prefixes with a batch of candidate trips.

    Conventions of the embedding.
    - A two-dimensional array is a [matrix]: its list of rows together with
      its number of columns, so that the shape of an array with no row is
      kept (the transpose of a 0 x T array is a T x 0 array).
    - Tensor expressions denote real numbers: [exp], [sqrt] and division are
      those of the real field; rounding and overflow are not modelled.
      The program divides by the standard deviations of the coordinates,
      which are constants of the data set, and by the norm of every
      candidate representation when the normalisation is configured.  The
      latter yields 0/0 on a representation of zeros, which is not a number
      in the program and has no counterpart in the real field: the
      properties of the attention and of the prediction are stated for the
      batches on which no such division occurs ([normalization_defined]).
    - Masks hold whole numbers (0 or 1 in a well-formed batch) and are
      carried as [Z]; an [int64] is a [Z] with its wrap-around written out.
    - Every operation that can raise (a missing key, an index out of
      range, a shape mismatch) returns an [option].
    - The bricks of the Blocks library ([Bidirectional], [LSTM], [Fork],
      [MLP]) and the [ContextEmbedder] are parameters of the encoder. *)

From Stdlib Require Import Reals Lra Lia ZArith.
From stdpp Require Import base option list gmap strings.

(** ** Arrays *)

Module Numpy.

Record matrix (A : Type) : Type := Matrix { ncols : nat; rows : list (list A) }.
Arguments Matrix {A} ncols rows.
Arguments ncols {A} m.
Arguments rows {A} m.

Definition nrows {A} (m : matrix A) : nat := length (rows m).

(** Every row has the declared width. *)
Definition wf {A} (m : matrix A) : Prop :=
  Forall (fun r => length r = ncols m) (rows m).

(** [cast(x, 'int64')] on a whole number: two's complement wrap-around. *)
Definition cast_int64 (z : Z) : Z :=
  ((z + 2 ^ 63) mod 2 ^ 64 - 2 ^ 63)%Z.

(** [l[i]] for an integer [i]: a negative index counts from the end, an
    index outside [-len, len) raises [IndexError]. *)
Definition np_index {A} (l : list A) (i : Z) : option A :=
  let n := Z.of_nat (length l) in
  if decide (0 <= i < n)%Z then l !! Z.to_nat i
  else if decide (- n <= i < 0)%Z then l !! Z.to_nat (i + n)
  else None.

(** [arange(n)] *)
Definition arange (n : nat) : list Z := map Z.of_nat (seq 0 n).

(** [m.T] *)
Definition transpose {A} `{Inhabited A} (m : matrix A) : matrix A :=
  Matrix (nrows m) (map (fun j => map (fun r => r !!! j) (rows m)) (seq 0 (ncols m))).

(** Elementwise application of a scalar function. *)
Definition mmap {A B} (f : A -> B) (m : matrix A) : matrix B :=
  Matrix (ncols m) (map (map f) (rows m)).

(** [m[:, :d]] *)
Definition cols_first {A} (d : nat) (m : matrix A) : matrix A :=
  Matrix (d `min` ncols m) (map (take d) (rows m)).

(** [m[:, -d:]]; in Python [-0] is [0], so that [m[:, -0:]] is all of [m]. *)
Definition cols_last {A} (d : nat) (m : matrix A) : matrix A :=
  if decide (d = 0) then m
  else Matrix (d `min` ncols m) (map (fun r => drop (length r - d) r) (rows m)).

(** [v[:, None]]: a vector as a one-column matrix. *)
Definition column {A} (v : list A) : matrix A :=
  Matrix 1 (map (fun x => [x]) v).

(** [concatenate((a, b), axis=1)]: the numbers of rows must agree. *)
Definition hconcat {A} (a b : matrix A) : option (matrix A) :=
  if decide (nrows a = nrows b)
  then Some (Matrix (ncols a + ncols b) (zip_with app (rows a) (rows b)))
  else None.

(** [concatenate(ms, axis=1)] for a tuple of matrices. *)
Fixpoint concatenate_axis1 {A} (ms : list (matrix A)) : option (matrix A) :=
  match ms with
  | [] => None
  | [m] => Some m
  | m :: ms' => concatenate_axis1 ms' ≫= hconcat m
  end.

(** [m.sum(axis=0)] and [m.sum(axis=1)] on whole numbers. *)
Definition Zsum (l : list Z) : Z := foldr Z.add 0%Z l.

Definition sum_axis0 (m : matrix Z) : list Z :=
  map (fun j => Zsum (map (fun r => r !!! j) (rows m))) (seq 0 (ncols m)).

Definition sum_axis1 (m : matrix Z) : list Z := map Zsum (rows m).

(** [m[I, J]] for two index vectors on a matrix: entry [b] of the result is
    [m[I[b], J[b]]]. *)
Definition index2 {A} (m : matrix A) (I J : list Z) : option (list A) :=
  mapM (fun ij => np_index (rows m) ij.1 ≫= fun r => np_index r ij.2) (zip I J).

(** [p[I, J]] for two index vectors on a three-dimensional array (a list,
    along the first axis, of matrices): row [b] of the result is
    [p[I[b], J[b], :]]. *)
Definition index3 {A} (p : list (matrix A)) (I J : list Z) : option (matrix A) :=
  rs ← mapM (fun ij => np_index p ij.1 ≫= fun m => np_index (rows m) ij.2) (zip I J);
  Some (Matrix (from_option ncols 0 (head p)) rs).

End Numpy.

(** ** Real-valued tensor operations *)

Module Tensor.
Import Numpy.

#[export] Instance R_inhabited : Inhabited R := populate 0%R.

Definition Rsum (l : list R) : R := foldr Rplus 0%R l.

(** [dot(a, b)] for two matrices; the inner dimensions must agree. *)
Definition dot (a b : matrix R) : option (matrix R) :=
  if decide (ncols a = nrows b)
  then Some (Matrix (ncols b)
               (map (fun ra =>
                  map (fun j => Rsum (zip_with Rmult ra (map (fun rb => rb !!! j) (rows b))))
                      (seq 0 (ncols b)))
                  (rows a)))
  else None.

(** The softmax of one row: [exp(x_j) / sum_k exp(x_k)]. *)
Definition softmax_row (x : list R) : list R :=
  let e := map exp x in map (fun v => (v / Rsum e)%R) e.

(** [Softmax().apply(m)]: the softmax of every row. *)
Definition softmax (m : matrix R) : matrix R :=
  Matrix (ncols m) (map softmax_row (rows m)).

(** [sqrt((r ** 2).sum())] for one row. *)
Definition norm2 (r : list R) : R := sqrt (Rsum (map (fun x => (x ^ 2)%R) r)).

(** [m / sqrt((m ** 2).sum(axis=1, keepdims=True))].  This is the quotient
    the program computes for every row whose norm is not zero; on a row of
    zeros the program divides 0 by 0 and every entry of the row is not a
    number, where the quotient below is some real. *)
Definition normalize_rows (m : matrix R) : matrix R :=
  Matrix (ncols m) (map (fun r => map (fun x => (x / norm2 r)%R) r) (rows m)).

End Tensor.

(** ** Keyword arguments *)

(** The arrays a batch holds under its keys. *)
Inductive array : Type :=
  | Floats (a : Numpy.matrix R)   (* coordinates, batch x time *)
  | Ints (a : Numpy.matrix Z)     (* a mask, batch x time *)
  | Codes (a : list Z).           (* a metadata code per example *)

Definition as_floats (v : array) : option (Numpy.matrix R) :=
  match v with Floats a => Some a | _ => None end.

Definition as_ints (v : array) : option (Numpy.matrix Z) :=
  match v with Ints a => Some a | _ => None end.

(** [{name: kwargs[key(name)] for name in names}], filled in the order of
    [names]; a missing key raises [KeyError]. *)
Fixpoint select_into (key : string -> string) (names : list string)
    (kwargs d : gmap string array) : option (gmap string array) :=
  match names with
  | [] => Some d
  | name :: names' =>
      v ← kwargs !! key name; select_into key names' kwargs (<[name := v]> d)
  end.

Definition select (key : string -> string) (names : list string)
    (kwargs : gmap string array) : option (gmap string array) :=
  select_into key names kwargs ∅.

(** [ContextEmbedder]: the names of the metadata it reads and its [apply],
    which returns one embedding matrix per metadata. *)
Record ContextEmbedder : Type := {
  ce_inputs : list string;
  ce_apply : gmap string array -> option (list (Numpy.matrix R))
}.

(** ** RecurrentEncoder *)

Module RecurrentEncoder.
Import Numpy Tensor.

(** What [__init__] receives: [config.rec_state_dim], the context embedder
    built from [config], and the bricks with their parameters.  [rec] is
    [self.rec.apply(self.fork.apply(rec_in), mask=mask)[0]], on arrays whose
    first axis is time; [rec_to_output] is the [MLP]. *)
Record config : Type := {
  rec_state_dim : nat;
  embedder : ContextEmbedder;
  rec_brick : list (matrix R) -> matrix Z -> option (list (matrix R));
  mlp_brick : matrix R -> option (matrix R)
}.

Record t : Type := {
  cfg : config;
  context_embedder : ContextEmbedder;
  rec : list (matrix R) -> matrix Z -> option (list (matrix R));
  rec_to_output : matrix R -> option (matrix R);
  rec_inputs : list string;
  inputs : list string
}.

Definition init (c : config) : t :=
  let rec_inputs := ["latitude"; "longitude"; "latitude_mask"] in
  {| cfg := c;
     context_embedder := embedder c;
     rec := rec_brick c;
     rec_to_output := mlp_brick c;
     rec_inputs := rec_inputs;
     inputs := ce_inputs (embedder c) ++ rec_inputs |}.

(** [tensor.concatenate((lat[:, :, None], lon[:, :, None]), axis=2)]: both
    arrays must have the same shape; the result holds, for every time step,
    the matrix of the pairs of coordinates of the examples. *)
Definition stack_channels (a b : matrix R) : option (list (matrix R)) :=
  if decide (ncols a = ncols b /\ nrows a = nrows b)
  then Some (zip_with (fun ra rb => Matrix 2 (zip_with (fun x y => [x; y]) ra rb))
                      (rows a) (rows b))
  else None.

(** [last_id = tensor.cast(latitude_mask.sum(axis=0) - 1, dtype='int64')],
    on the transposed mask. *)
Definition last_id (latitude_mask : matrix Z) : list Z :=
  map (fun s => cast_int64 (s - 1)) (sum_axis0 latitude_mask).

(** [(path[0][:, -d:], path[last_id - 1, arange(last_id.shape[0])][:, :d])] *)
Definition path_representation (d : nat) (path : list (matrix R)) (last_id : list Z)
    : option (matrix R * matrix R) :=
  first ← np_index path 0;
  last ← index3 path (map (fun i => cast_int64 (i - 1)) last_id) (arange (length last_id));
  Some (cols_last d first, cols_first d last).

Section Apply.
Context (train_gps_mean train_gps_std : R * R).

Definition apply (self : t) (args : gmap string array) : option (matrix R) :=
  latitude ← args !! "latitude" ≫= as_floats;
  longitude ← args !! "longitude" ≫= as_floats;
  latitude_mask ← args !! "latitude_mask" ≫= as_ints;
  let kwargs := delete "latitude" (delete "longitude" (delete "latitude_mask" args)) in
  let latitude :=
    mmap (fun x => ((x - train_gps_mean.1) / train_gps_std.1)%R) (transpose latitude) in
  let longitude :=
    mmap (fun x => ((x - train_gps_mean.2) / train_gps_std.2)%R) (transpose longitude) in
  let latitude_mask := transpose latitude_mask in
  rec_in ← stack_channels latitude longitude;
  path ← rec self rec_in latitude_mask;
  pr ← path_representation (rec_state_dim (cfg self)) path (last_id latitude_mask);
  ctx ← select (fun name => name) (ce_inputs (context_embedder self)) kwargs;
  embeddings ← ce_apply (context_embedder self) ctx;
  inputs ← concatenate_axis1 (pr.1 :: pr.2 :: embeddings);
  rec_to_output self inputs.

End Apply.
End RecurrentEncoder.

(** ** Model *)

Module Model.
Import Numpy Tensor.

(** [config.prefix_encoder], [config.candidate_encoder] (with the
    representation size and activation folded into their [mlp_brick]) and
    [config.normalize_representation]. *)
Record config : Type := {
  prefix_encoder_config : RecurrentEncoder.config;
  candidate_encoder_config : RecurrentEncoder.config;
  normalize_representation : bool
}.

Record t : Type := {
  cfg : config;
  prefix_encoder : RecurrentEncoder.t;
  candidate_encoder : RecurrentEncoder.t;
  inputs : list string
}.

Definition init (c : config) : t :=
  let prefix_encoder := RecurrentEncoder.init (prefix_encoder_config c) in
  let candidate_encoder := RecurrentEncoder.init (candidate_encoder_config c) in
  {| cfg := c;
     prefix_encoder := prefix_encoder;
     candidate_encoder := candidate_encoder;
     inputs := RecurrentEncoder.inputs prefix_encoder
               ++ map (String.append "candidate_") (RecurrentEncoder.inputs candidate_encoder) |}.

(** [candidate_last = tensor.cast(candidate_mask.sum(axis=1) - 1, 'int64')] *)
Definition candidate_last (candidate_mask : matrix Z) : list Z :=
  map (fun s => cast_int64 (s - 1)) (sum_axis1 candidate_mask).

(** The last valid point of every candidate, one row [lat; lon] each. *)
Definition candidate_destination (kwargs : gmap string array) : option (matrix R) :=
  candidate_mask ← kwargs !! "candidate_latitude_mask" ≫= as_ints;
  let candidate_last := candidate_last candidate_mask in
  let examples := arange (nrows candidate_mask) in
  latitude ← kwargs !! "candidate_latitude" ≫= as_floats;
  lat ← index2 latitude examples candidate_last;
  longitude ← kwargs !! "candidate_longitude" ≫= as_floats;
  lon ← index2 longitude examples candidate_last;
  hconcat (column lat) (column lon).

Section Predict.
Context (train_gps_mean train_gps_std : R * R).

Definition prefix_representation (self : t) (kwargs : gmap string array)
    : option (matrix R) :=
  select (fun name => name) (RecurrentEncoder.inputs (prefix_encoder self)) kwargs
    ≫= RecurrentEncoder.apply train_gps_mean train_gps_std (prefix_encoder self).

(** Lines 108-109: the candidates, encoded. *)
Definition encoded_candidates (self : t) (kwargs : gmap string array)
    : option (matrix R) :=
  select (String.append "candidate_")
         (RecurrentEncoder.inputs (candidate_encoder self)) kwargs
    ≫= RecurrentEncoder.apply train_gps_mean train_gps_std (prefix_encoder self).

(** Lines 108-113: the candidate representation that is scored. *)
Definition candidate_representation (self : t) (kwargs : gmap string array)
    : option (matrix R) :=
  c ← encoded_candidates self kwargs;
  Some (if normalize_representation (cfg self) then normalize_rows c else c).

Definition similarity_score (self : t) (kwargs : gmap string array)
    : option (matrix R) :=
  prefix_representation ← prefix_representation self kwargs;
  candidate_representation ← candidate_representation self kwargs;
  dot prefix_representation (transpose candidate_representation).

Definition similarity (self : t) (kwargs : gmap string array) : option (matrix R) :=
  softmax <$> similarity_score self kwargs.

Definition predict (self : t) (kwargs : gmap string array) : option (matrix R) :=
  similarity ← similarity self kwargs;
  candidate_destination ← candidate_destination kwargs;
  dot similarity candidate_destination.

End Predict.

Definition predict_inputs (self : t) : list string := inputs self.

Definition cost_inputs (self : t) : list string :=
  inputs self ++ ["destination_latitude"; "destination_longitude"].

End Model.

(** ** Smallest and largest entry of a list of reals *)

Import Numpy Tensor.

Fixpoint Rmin_list (l : list R) : option R :=
  match l with
  | [] => None
  | x :: l' => Some (from_option (Rmin x) x (Rmin_list l'))
  end.

Fixpoint Rmax_list (l : list R) : option R :=
  match l with
  | [] => None
  | x :: l' => Some (from_option (Rmax x) x (Rmax_list l'))
  end.

(** Column [j] of a matrix, as [m[:, j]]. *)
Definition col (j : nat) (m : matrix R) : list R :=
  map (fun r => r !!! j) (rows m).

(** A vector with at least one entry that is not zero. *)
Definition nonzero (r : list R) : Prop := exists x, x ∈ r /\ x <> 0%R.

(** The normalisation of lines 111-113 divides by no zero norm: when
    [normalize_representation] is set, no candidate encoding is the zero
    vector.  On a zero encoding the program computes 0/0, and the value
    that is not a number spreads through the product and the softmax to
    every attention weight and to every predicted coordinate. *)
Definition normalization_defined (train_gps_mean train_gps_std : R * R)
    (self : Model.t) (kwargs : gmap string array) : Prop :=
  Model.normalize_representation (Model.cfg self) = true ->
  forall e, Model.encoded_candidates train_gps_mean train_gps_std self kwargs = Some e ->
    Forall nonzero (rows e).

(** A mask whose entries are all 0 or 1. *)
Definition binary (m : matrix Z) : Prop :=
  Forall (Forall (fun x => x = 0%Z \/ x = 1%Z)) (rows m).

(** [path[t, b, :d]]: the forward hidden state of example [b] at time
    step [t], the forward states being the first [d] columns of the states
    of the bidirectional layer. *)
Definition forward_state (d : nat) (path : list (matrix R)) (t : Z) (b : nat)
    : option (list R) :=
  m ← np_index path t; s ← np_index (rows m) (Z.of_nat b); Some (take d s).

(** ** Reordering the examples of a batch *)

(** [permute σ l] is [l[σ]]: its entry [b] is the entry [σ[b]] of [l]. *)
Definition permute {A} `{Inhabited A} (σ : list nat) (l : list A) : list A :=
  (fun i => l !!! i) <$> σ.

(** Reordering the rows of a matrix whose first axis is the batch. *)
Definition permute_rows {A} (σ : list nat) (m : matrix A) : matrix A :=
  Matrix (ncols m) (permute σ (rows m)).

(** Reordering the columns of a matrix whose second axis is the batch. *)
Definition permute_cols {A} `{Inhabited A} (σ : list nat) (m : matrix A) : matrix A :=
  Matrix (ncols m) (permute σ <$> rows m).

Definition permute_array (σ : list nat) (v : array) : array :=
  match v with
  | Floats a => Floats (permute_rows σ a)
  | Ints a => Ints (permute_rows σ a)
  | Codes a => Codes (permute σ a)
  end.

(** The number of examples of an array. *)
Definition batch_size (v : array) : nat :=
  match v with
  | Floats a => nrows a
  | Ints a => nrows a
  | Codes a => length a
  end.

(** The batch in which the examples of every array stored under a key
    that starts with [candidate_] are reordered by [σ]. *)
Definition permute_candidates (σ : list nat) (kwargs : gmap string array)
    : gmap string array :=
  map_imap (fun k v =>
    Some (if String.prefix "candidate_" k then permute_array σ v else v)) kwargs.

(** Bricks that treat the examples of a batch independently of each other
    and of their order, and return one result per example: reordering the
    examples of the input reorders the results in the same way. *)
Definition batchwise_rec
    (f : list (matrix R) -> matrix Z -> option (list (matrix R))) : Prop :=
  forall (σ : list nat) (x : list (matrix R)) (mask : matrix Z),
    σ ≡ₚ seq 0 (ncols mask) ->
    Forall (fun p => nrows p = ncols mask) x ->
    wf mask ->
    f (permute_rows σ <$> x) (permute_cols σ mask)
      = (fun path : list (matrix R) => permute_rows σ <$> path) <$> f x mask
    /\ forall path, f x mask = Some path ->
         Forall (fun p => nrows p = ncols mask) path.

Definition batchwise_embedder (ce : ContextEmbedder) : Prop :=
  forall (σ : list nat) (n : nat) (ctx : gmap string array),
    σ ≡ₚ seq 0 n ->
    (forall k v, ctx !! k = Some v -> batch_size v = n) ->
    ce_apply ce (permute_array σ <$> ctx)
      = (fun es : list (matrix R) => permute_rows σ <$> es) <$> ce_apply ce ctx
    /\ forall es, ce_apply ce ctx = Some es -> Forall (fun e => nrows e = n) es.

Definition batchwise_mlp (f : matrix R -> option (matrix R)) : Prop :=
  forall (σ : list nat) (x : matrix R),
    σ ≡ₚ seq 0 (nrows x) ->
    f (permute_rows σ x) = permute_rows σ <$> f x
    /\ forall y, f x = Some y -> nrows y = nrows x.

(** ** A small model and small batches *)

Module Example.
Local Open Scope R_scope.

Definition gps_mean : R * R := (0, 0).
Definition gps_std : R * R := (1, 1).

(** No metadata: an embedder without inputs returns no embedding. *)
Definition no_metadata : ContextEmbedder :=
  {| ce_inputs := []; ce_apply := fun _ => Some [] |}.

(** A recurrent brick of state dimension 1 whose state at a time step is
    the pair of coordinates it reads there: the forward state (first
    column) is the latitude, the backward state (last column) the
    longitude. *)
Definition echo (rec_in : list (matrix R)) (mask : matrix Z)
    : option (list (matrix R)) := Some rec_in.

(** An output layer that returns its input. *)
Definition identity_encoder : RecurrentEncoder.config :=
  {| RecurrentEncoder.rec_state_dim := 1;
     RecurrentEncoder.embedder := no_metadata;
     RecurrentEncoder.rec_brick := echo;
     RecurrentEncoder.mlp_brick := Some |}.


Definition model (encoder : RecurrentEncoder.config) (normalize : bool) : Model.t :=
  Model.init {| Model.prefix_encoder_config := encoder;
                Model.candidate_encoder_config := encoder;
                Model.normalize_representation := normalize |}.

(** Two prefixes and three candidates, of two time steps. *)
Definition batch : gmap string array :=
  <["latitude" := Floats (Matrix 2 [[1; 2]; [3; 4]])]>
  (<["longitude" := Floats (Matrix 2 [[5; 6]; [7; 8]])]>
  (<["latitude_mask" := Ints (Matrix 2 [[1; 1]; [1; 1]]%Z)]>
  (<["candidate_latitude" := Floats (Matrix 2 [[1; 2]; [3; 4]; [5; 6]])]>
  (<["candidate_longitude" := Floats (Matrix 2 [[2; 1]; [4; 3]; [6; 5]])]>
  (<["candidate_latitude_mask" := Ints (Matrix 2 [[1; 1]; [1; 0]; [1; 1]]%Z)]>
   ∅))))).

(** One prefix and no candidate. *)
Definition batch_without_candidates : gmap string array :=
  <["latitude" := Floats (Matrix 2 [[1; 2]])]>
  (<["longitude" := Floats (Matrix 2 [[5; 6]])]>
  (<["latitude_mask" := Ints (Matrix 2 [[1; 1]]%Z)]>
  (<["candidate_latitude" := Floats (Matrix 2 [])]>
  (<["candidate_longitude" := Floats (Matrix 2 [])]>
  (<["candidate_latitude_mask" := Ints (Matrix 2 [])]>
   ∅))))).

(** One trajectory of five time steps, the first three of them valid. *)
Definition trajectory : gmap string array :=
  <["latitude" := Floats (Matrix 5 [[10; 20; 30; 40; 50]])]>
  (<["longitude" := Floats (Matrix 5 [[1; 2; 3; 4; 5]])]>
  (<["latitude_mask" := Ints (Matrix 5 [[1; 1; 1; 0; 0]]%Z)]> ∅)).

End Example.

(** ** Well-formed candidate arrays *)

(** The three arrays that [predict] reads the destinations from: a binary
    mask and two coordinate arrays, rectangular and of the same shape. *)
Definition candidate_arrays (kwargs : gmap string array)
    (mask : matrix Z) (lat lon : matrix R) : Prop :=
  kwargs !! "candidate_latitude_mask" = Some (Ints mask)
  /\ kwargs !! "candidate_latitude" = Some (Floats lat)
  /\ kwargs !! "candidate_longitude" = Some (Floats lon)
  /\ wf mask /\ binary mask /\ (Z.of_nat (ncols mask) < 2 ^ 63)%Z
  /\ wf lat /\ wf lon
  /\ ncols lat = ncols mask /\ ncols lon = ncols mask
  /\ nrows lat = nrows mask /\ nrows lon = nrows mask.


(** The batch in which the examples of every array stored under a key
    that does not start with [candidate_] are reordered by [σ]. *)
Definition permute_prefixes (σ : list nat) (kwargs : gmap string array)
    : gmap string array :=
  map_imap (fun k v =>
    Some (if String.prefix "candidate_" k then v else permute_array σ v)) kwargs.


(** ** The dimensions declared by [RecurrentEncoder.__init__] *)

(** [rto_in = config.rec_state_dim * 2 + sum(x[2] for x in config.dim_embeddings)],
    an entry of [dim_embeddings] being a triple (name, number of values,
    dimension). *)
Definition rto_in (rec_state_dim : nat) (dim_embeddings : list (string * nat * nat))
    : nat :=
  rec_state_dim * 2 + sum_list (map (fun x => x.2) dim_embeddings).

(** [dims=[rto_in] + config.dim_hidden + [output_dim]] *)
Definition rec_to_output_dims (rec_state_dim : nat)
    (dim_embeddings : list (string * nat * nat)) (dim_hidden : list nat)
    (output_dim : nat) : list nat :=
  [rto_in rec_state_dim dim_embeddings] ++ dim_hidden ++ [output_dim].

(** Lines 53-70 of [apply]: the array that is given to [rec_to_output]. *)
Definition rec_to_output_input (train_gps_mean train_gps_std : R * R)
    (self : RecurrentEncoder.t) (args : gmap string array) : option (matrix R) :=
  latitude ← args !! "latitude" ≫= as_floats;
  longitude ← args !! "longitude" ≫= as_floats;
  latitude_mask ← args !! "latitude_mask" ≫= as_ints;
  let kwargs := delete "latitude" (delete "longitude" (delete "latitude_mask" args)) in
  let latitude :=
    mmap (fun x => ((x - train_gps_mean.1) / train_gps_std.1)%R) (transpose latitude) in
  let longitude :=
    mmap (fun x => ((x - train_gps_mean.2) / train_gps_std.2)%R) (transpose longitude) in
  let latitude_mask := transpose latitude_mask in
  rec_in ← RecurrentEncoder.stack_channels latitude longitude;
  path ← RecurrentEncoder.rec self rec_in latitude_mask;
  pr ← RecurrentEncoder.path_representation
         (RecurrentEncoder.rec_state_dim (RecurrentEncoder.cfg self)) path
         (RecurrentEncoder.last_id latitude_mask);
  ctx ← select (fun name => name)
         (ce_inputs (RecurrentEncoder.context_embedder self)) kwargs;
  embeddings ← ce_apply (RecurrentEncoder.context_embedder self) ctx;
  concatenate_axis1 (pr.1 :: pr.2 :: embeddings).


(** ** Bricks as objects: the propagation of the initialisation *)

(** The bricks of an encoder are Python objects that [children] and the
    fields of the encoder both refer to.  An object is the dict of its
    attributes; the store maps the identity of an object to the object. *)
Module Bricks.

Inductive attr (init : Type) : Type :=
  | Init (i : init)          (* an initialisation scheme *)
  | Dim (n : nat)
  | Dims (l : list nat)
  | Names (l : list string).
Arguments Init {init} i.
Arguments Dim {init} n.
Arguments Dims {init} l.
Arguments Names {init} l.

Section Store.
Context {init : Type}.

Record encoder : Type := {
  weights_init : init;       (* [self.config.weights_init] *)
  biases_init : init;        (* [self.config.biases_init] *)
  context_embedder : nat;
  rec : nat;
  fork : nat;
  rec_to_output : nat;
  children : list nat
}.

(** A new object: it gets an identity that no object of the store has. *)
Definition new (o : gmap string (attr init)) (s : gmap nat (gmap string (attr init)))
    : nat * gmap nat (gmap string (attr init)) :=
  let r := fresh (dom s) in (r, <[r := o]> s).

(** [obj.name = v] *)
Definition set_attr (r : nat) (name : string) (v : attr init)
    (s : gmap nat (gmap string (attr init))) : gmap nat (gmap string (attr init)) :=
  alter (fun o => <[name := v]> o) r s.

(** [__init__], as far as objects go: the four bricks are created, in the
    order of the source, with the attributes their constructors give them,
    and [children] refers to them. *)
Definition __init__ (weights biases : init)
    (o_context_embedder o_rec o_fork o_rec_to_output : gmap string (attr init))
    (s : gmap nat (gmap string (attr init)))
    : encoder * gmap nat (gmap string (attr init)) :=
  let '(context_embedder, s) := new o_context_embedder s in
  let '(rec, s) := new o_rec s in
  let '(fork, s) := new o_fork s in
  let '(rec_to_output, s) := new o_rec_to_output s in
  ({| weights_init := weights; biases_init := biases;
      context_embedder := context_embedder; rec := rec; fork := fork;
      rec_to_output := rec_to_output;
      children := [context_embedder; rec; fork; rec_to_output] |}, s).

(** [for brick in self.children: brick.weights_init = ...; brick.biases_init = ...] *)
Definition _push_initialization_config (self : encoder)
    (s : gmap nat (gmap string (attr init))) : gmap nat (gmap string (attr init)) :=
  foldl (fun s brick =>
           set_attr brick "biases_init" (Init (biases_init self))
             (set_attr brick "weights_init" (Init (weights_init self)) s))
        s (children self).

End Store.
End Bricks.


(** ** The batch of [cost] *)

(** A batch given to [cost] holds, besides the arrays that [predict]
    reads, the true destinations: one real number per example. *)
Inductive value : Type :=
  | Array (a : array)
  | Vector (v : list R).

Definition as_vector (v : value) : option (list R) :=
  match v with Vector v => Some v | Array _ => None end.

(** The arrays of a batch, as [predict] sees them. *)
Definition arrays (kwargs : gmap string value) : gmap string array :=
  omap (fun v => match v with Array a => Some a | Vector _ => None end) kwargs.

(** [x.mean()] for a vector *)
Definition mean (x : list R) : R := (Rsum x / INR (length x))%R.

(** [Model.cost]; [erdist], of the module [error], is a parameter: it
    returns one distance per example. *)
Definition cost (train_gps_mean train_gps_std : R * R)
    (erdist : matrix R -> matrix R -> option (list R))
    (self : Model.t) (kwargs : gmap string value) : option R :=
  y_hat ← Model.predict train_gps_mean train_gps_std self (arrays kwargs);
  destination_latitude ← kwargs !! "destination_latitude" ≫= as_vector;
  destination_longitude ← kwargs !! "destination_longitude" ≫= as_vector;
  y ← hconcat (column destination_latitude) (column destination_longitude);
  mean <$> erdist y_hat y.


(** ** More small batches and models *)

Module Cases.
Import Example.
Local Open Scope R_scope.

(** The recurrent states of one example over five time steps: the forward
    state is the first column. *)
Definition states : list (matrix R) :=
  [Matrix 2 [[10; 1]]; Matrix 2 [[20; 2]]; Matrix 2 [[30; 3]];
   Matrix 2 [[40; 4]]; Matrix 2 [[50; 5]]].

Definition mask_of_three : matrix Z := Matrix 5 [[1; 1; 1; 0; 0]]%Z.

(** Two candidates, the second without any valid position. *)
Definition batch_with_padding_candidate : gmap string array :=
  <["candidate_latitude" := Floats (Matrix 2 [[1; 2]; [3; 4]])]>
  (<["candidate_longitude" := Floats (Matrix 2 [[5; 6]; [7; 8]])]>
  (<["candidate_latitude_mask" := Ints (Matrix 2 [[1; 1]; [0; 0]]%Z)]> ∅)).

(** One candidate and no time step. *)
Definition batch_without_time_steps : gmap string array :=
  <["candidate_latitude" := Floats (Matrix 0 [[]])]>
  (<["candidate_longitude" := Floats (Matrix 0 [[]])]>
  (<["candidate_latitude_mask" := Ints (Matrix 0 [[]])]> ∅)).

(** Two prefixes and two candidates that end at the same point (2, 6). *)
Definition batch_with_one_destination : gmap string array :=
  <["latitude" := Floats (Matrix 2 [[1; 2]; [3; 4]])]>
  (<["longitude" := Floats (Matrix 2 [[5; 6]; [7; 8]])]>
  (<["latitude_mask" := Ints (Matrix 2 [[1; 1]; [1; 1]]%Z)]>
  (<["candidate_latitude" := Floats (Matrix 2 [[1; 2]; [2; 9]])]>
  (<["candidate_longitude" := Floats (Matrix 2 [[5; 6]; [6; 9]])]>
  (<["candidate_latitude_mask" := Ints (Matrix 2 [[1; 1]; [1; 0]]%Z)]>
   ∅))))).

(** A prefix encoder that reads the metadata [origin_call], beside a
    candidate encoder that reads none. *)
Definition one_metadata : ContextEmbedder :=
  {| ce_inputs := ["origin_call"];
     ce_apply := fun ctx =>
       match ctx !! "origin_call" with
       | Some (Codes a) => Some [Matrix 1 ((fun z => [IZR z]) <$> a)]
       | _ => None
       end |}.

Definition metadata_encoder : RecurrentEncoder.config :=
  {| RecurrentEncoder.rec_state_dim := 1;
     RecurrentEncoder.embedder := one_metadata;
     RecurrentEncoder.rec_brick := echo;
     RecurrentEncoder.mlp_brick := Some |}.

Definition mismatched_config : Model.config :=
  {| Model.prefix_encoder_config := metadata_encoder;
     Model.candidate_encoder_config := identity_encoder;
     Model.normalize_representation := false |}.

Definition identity_config (normalize : bool) : Model.config :=
  {| Model.prefix_encoder_config := identity_encoder;
     Model.candidate_encoder_config := identity_encoder;
     Model.normalize_representation := normalize |}.

(** The batch of [Example.batch] with the true destinations, for [cost]. *)
Definition cost_batch : gmap string value :=
  <["destination_latitude" := Vector [2; 6]]>
  (<["destination_longitude" := Vector [1; 5]]> (Array <$> batch)).

(** A distance: the differences of the latitudes. *)
Definition latitude_gap (a b : matrix R) : option (list R) :=
  Some (zip_with (fun ra rb => ra !!! 0%nat - rb !!! 0%nat) (rows a) (rows b)).

(** Two prefixes that are also the two candidates. *)
Definition batch_of_own_candidates : gmap string array :=
  <["latitude" := Floats (Matrix 2 [[1; 2]; [3; 4]])]>
  (<["longitude" := Floats (Matrix 2 [[5; 6]; [7; 8]])]>
  (<["latitude_mask" := Ints (Matrix 2 [[1; 1]; [1; 1]]%Z)]>
  (<["candidate_latitude" := Floats (Matrix 2 [[1; 2]; [3; 4]])]>
  (<["candidate_longitude" := Floats (Matrix 2 [[5; 6]; [7; 8]])]>
  (<["candidate_latitude_mask" := Ints (Matrix 2 [[1; 1]; [1; 1]]%Z)]>
   ∅))))).

End Cases.


(** [(r ** 2).sum()] for one row. *)
Definition sum_of_squares (a : list R) : R := Rsum (map (fun x => (x ^ 2)%R) a).

(* ------------------------------------------------------------------ *)
(** * Properties *)

(** Reduce a bind or a map on an [option] whose argument is known. *)
Ltac simpl_option :=
  cbn [fmap option_fmap option_map mbind option_bind fst snd].

(** The length of a row of a rectangular matrix. *)
Ltac wf_length Hwf :=
  unfold wf in Hwf; rewrite Forall_forall in Hwf;
  apply Hwf; by eapply list_elem_of_lookup_2.

(** ** Sums, softmax and convex combinations *)

Section Sums.
Local Open Scope R_scope.

Lemma Rsum_scale (s : R) (l : list R) :
  Rsum (map (fun v => v / s) l) = Rsum l / s.
Proof.
  induction l as [|x l IH]; simpl.
  - unfold Rdiv. lra.
  - rewrite IH. unfold Rdiv. lra.
Qed.

Lemma Rsum_exp_pos (x : list R) : x <> [] -> 0 < Rsum (map exp x).
Proof.
  destruct x as [|a x]; [done | intros _].
  simpl. assert (0 <= Rsum (map exp x)).
  { induction x as [|b x IH]; simpl; [lra | pose proof (exp_pos b); lra]. }
  pose proof (exp_pos a). lra.
Qed.

Lemma Rsum_permutation (l k : list R) : l ≡ₚ k -> Rsum l = Rsum k.
Proof. induction 1; simpl; lra. Qed.

Lemma softmax_row_length (x : list R) : length (softmax_row x) = length x.
Proof. unfold softmax_row. by rewrite !length_map. Qed.

Lemma softmax_row_sum (x : list R) : x <> [] -> Rsum (softmax_row x) = 1.
Proof.
  intros Hx. unfold softmax_row. rewrite Rsum_scale.
  pose proof (Rsum_exp_pos x Hx). field. lra.
Qed.

Lemma softmax_row_nonneg (x : list R) (w : R) : w ∈ softmax_row x -> 0 <= w.
Proof.
  unfold softmax_row. intros (e & -> & He)%list_elem_of_fmap.
  apply list_elem_of_fmap in He as (v & -> & Hv).
  assert (x <> []) as Hx by (intros ->; by apply elem_of_nil in Hv).
  pose proof (Rsum_exp_pos x Hx). pose proof (exp_pos v).
  apply Rlt_le, Rdiv_lt_0_compat; lra.
Qed.

(** A combination with non-negative weights that sum to 1 lies between
    any two bounds of the combined values. *)
Lemma convex_combination_bounds (w v : list R) (lo hi : R) :
  length w = length v ->
  (forall x, x ∈ w -> 0 <= x) ->
  (forall y, y ∈ v -> lo <= y <= hi) ->
  lo * Rsum w <= Rsum (zip_with Rmult w v) <= hi * Rsum w.
Proof.
  revert v. induction w as [|a w IH]; intros [|b v] Hlen Hw Hv; simplify_eq/=;
    try lra.
  destruct (IH v) as [IH1 IH2]; [done | | | ].
  - intros x Hx. apply Hw. by right.
  - intros y Hy. apply Hv. by right.
  - assert (0 <= a) by (apply Hw; left).
    assert (lo <= b <= hi) by (apply Hv; left).
    nra.
Qed.

Lemma Rmin_list_le (l : list R) (lo : R) :
  Rmin_list l = Some lo -> forall y, y ∈ l -> lo <= y.
Proof.
  revert lo. induction l as [|x l IH]; intros lo Hlo y Hy; [by apply elem_of_nil in Hy|].
  simpl in Hlo. injection Hlo as <-.
  destruct (Rmin_list l) as [m|] eqn:Hm; simpl.
  - apply elem_of_cons in Hy as [->|Hy].
    + apply Rmin_l.
    + etrans; [apply Rmin_r | by apply IH].
  - destruct l; [|done]. apply elem_of_cons in Hy as [->|Hy]; [lra|].
    by apply elem_of_nil in Hy.
Qed.

Lemma Rmax_list_ge (l : list R) (hi : R) :
  Rmax_list l = Some hi -> forall y, y ∈ l -> y <= hi.
Proof.
  revert hi. induction l as [|x l IH]; intros hi Hhi y Hy; [by apply elem_of_nil in Hy|].
  simpl in Hhi. injection Hhi as <-.
  destruct (Rmax_list l) as [m|] eqn:Hm; simpl.
  - apply elem_of_cons in Hy as [->|Hy].
    + apply Rmax_l.
    + etrans; [by apply IH | apply Rmax_r].
  - destruct l; [|done]. apply elem_of_cons in Hy as [->|Hy]; [lra|].
    by apply elem_of_nil in Hy.
Qed.

End Sums.

(** ** Shapes of products *)

Section Shapes.

Lemma dot_Some (a b out : matrix R) :
  dot a b = Some out ->
  ncols a = nrows b /\
  out = Matrix (ncols b)
          (map (fun ra => map (fun j => Rsum (zip_with Rmult ra (col j b)))
                              (seq 0 (ncols b))) (rows a)).
Proof. unfold dot. case_decide; [|done]. by intros [= <-]. Qed.

Lemma dot_wf (a b out : matrix R) : dot a b = Some out -> wf out.
Proof.
  intros [_ ->]%dot_Some. unfold wf. simpl.
  apply Forall_forall. intros r (ra & -> & _)%list_elem_of_fmap.
  by rewrite length_map, length_seq.
Qed.

Lemma softmax_wf (m : matrix R) : wf m -> wf (softmax m).
Proof.
  unfold wf, softmax. simpl. rewrite Forall_fmap.
  intros Hm. eapply Forall_impl; [exact Hm|].
  intros r Hr. simpl. by rewrite softmax_row_length.
Qed.

Lemma col_length (j : nat) (m : matrix R) : length (col j m) = nrows m.
Proof. unfold col, nrows. by rewrite length_map. Qed.

End Shapes.

(** ** The prediction as an attention-weighted combination *)

Section Prediction.
Context (train_gps_mean train_gps_std : R * R).
Local Open Scope R_scope.

Abbreviation similarity_score := (Model.similarity_score train_gps_mean train_gps_std).
Abbreviation similarity := (Model.similarity train_gps_mean train_gps_std).
Abbreviation predict := (Model.predict train_gps_mean train_gps_std).

Lemma similarity_Some (self : Model.t) (kwargs : gmap string array) (a : matrix R) :
  similarity self kwargs = Some a ->
  exists s, similarity_score self kwargs = Some s /\ wf s /\ a = softmax s.
Proof.
  unfold Model.similarity. intros (s & Hs & ->)%fmap_Some.
  exists s. split_and!; [done | | done].
  unfold Model.similarity_score in Hs.
  apply bind_Some in Hs as (p & _ & Hs). apply bind_Some in Hs as (q & _ & Hs).
  by eapply dot_wf.
Qed.

Lemma predict_Some (self : Model.t) (kwargs : gmap string array) (out : matrix R) :
  predict self kwargs = Some out ->
  exists a d, similarity self kwargs = Some a
    /\ Model.candidate_destination kwargs = Some d /\ dot a d = Some out.
Proof.
  unfold Model.predict. intros (a & Ha & H)%bind_Some.
  apply bind_Some in H as (d & Hd & H). by exists a, d.
Qed.

Lemma candidate_destination_ncols (kwargs : gmap string array) (d : matrix R) :
  Model.candidate_destination kwargs = Some d -> ncols d = 2%nat.
Proof.
  unfold Model.candidate_destination. intros H.
  repeat (apply bind_Some in H as (? & _ & H)).
  unfold hconcat in H. case_decide; [|done]. by injection H as <-.
Qed.

(** C4, as amended: when the batch yields at least one candidate
    representation (the attention matrix has at least one column) and the
    normalisation, if it is configured, divides by no zero norm, every row
    of the attention distribution of [Model.predict] sums to 1. *)
Theorem attention_rows_sum_to_one (self : Model.t) (kwargs : gmap string array)
    (a : matrix R) (row : list R) :
  similarity self kwargs = Some a ->
  (0 < ncols a)%nat ->
  normalization_defined train_gps_mean train_gps_std self kwargs ->
  row ∈ rows a ->
  Rsum row = 1.
Proof.
  intros (s & _ & Hwf & ->)%similarity_Some Hn _ Hrow. simpl in *.
  apply list_elem_of_fmap in Hrow as (r & -> & Hr).
  apply softmax_row_sum. intros ->.
  unfold wf in Hwf. rewrite Forall_forall in Hwf.
  specialize (Hwf _ Hr). simpl in Hwf. lia.
Qed.

(** C3, as amended: when the batch holds at least one candidate and the
    normalisation, if it is configured, divides by no zero norm, a
    predicted destination has exactly two coordinates, each coordinate has
    a smallest and a largest value over the candidate destinations, and
    the predicted coordinate lies between the two. *)
Theorem prediction_within_candidate_range (self : Model.t)
    (kwargs : gmap string array) (out d : matrix R) (row : list R)
    (j : nat) (x : R) :
  predict self kwargs = Some out ->
  Model.candidate_destination kwargs = Some d ->
  rows d <> [] ->
  normalization_defined train_gps_mean train_gps_std self kwargs ->
  row ∈ rows out ->
  row !! j = Some x ->
  length row = 2%nat
  /\ exists lo hi, Rmin_list (col j d) = Some lo /\ Rmax_list (col j d) = Some hi
       /\ lo <= x <= hi.
Proof.
  intros (a & d' & Ha & Hd' & Hdot)%predict_Some Hd Hcand _ Hrow Hx.
  assert (d' = d) as -> by congruence.
  assert (exists lo hi, Rmin_list (col j d) = Some lo /\ Rmax_list (col j d) = Some hi)
    as (lo & hi & Hlo & Hhi).
  { unfold col. destruct (rows d) as [|r0 rs]; [done|]. simpl. eauto. }
  cut (length row = 2%nat /\ lo <= x <= hi).
  { intros [? ?]. split; [done|]. by exists lo, hi. }
  apply similarity_Some in Ha as (s & _ & Hwf & ->).
  apply dot_Some in Hdot as [Hshape ->]. simpl in *.
  apply list_elem_of_fmap in Hrow as (w & -> & Hw).
  rewrite length_map, length_seq. split; [by eapply candidate_destination_ncols|].
  rewrite list_lookup_fmap in Hx.
  apply fmap_Some in Hx as (j' & [-> Hj]%lookup_seq & ->). simpl.
  apply list_elem_of_fmap in Hw as (r & -> & Hr).
  assert (length (softmax_row r) = length (col j d)) as Hlen.
  { rewrite softmax_row_length, col_length, <- Hshape.
    unfold wf in Hwf. rewrite Forall_forall in Hwf. by apply Hwf. }
  assert (r <> []) as Hne.
  { intros ->. simpl in Hlen. destruct (col j d); [done | done]. }
  pose proof (convex_combination_bounds (softmax_row r) (col j d) lo hi Hlen) as Hb.
  rewrite softmax_row_sum in Hb by done.
  destruct Hb as [Hb1 Hb2].
  - apply softmax_row_nonneg.
  - intros y Hy. split; [by eapply Rmin_list_le | by eapply Rmax_list_ge].
  - lra.
Qed.


End Prediction.

(** ** Normalised candidate representations *)

Section Normalisation.
Local Open Scope R_scope.

Lemma Rsum_squares_nonneg (r : list R) : 0 <= Rsum (map (fun x => x ^ 2) r).
Proof.
  induction r as [|a r IH]; simpl; [lra|].
  pose proof (pow2_ge_0 a). simpl in *. lra.
Qed.

Lemma Rsum_squares_pos (r : list R) : nonzero r -> 0 < Rsum (map (fun x => x ^ 2) r).
Proof.
  intros (x & Hx & Hx0). induction r as [|a r IH]; [by apply elem_of_nil in Hx|].
  simpl. pose proof (Rsum_squares_nonneg r). pose proof (pow2_ge_0 a).
  apply elem_of_cons in Hx as [<-|Hx].
  - assert (0 < x * x) by (destruct (Rtotal_order x 0) as [?|[?|?]]; [nra | done | nra]).
    simpl in *. lra.
  - specialize (IH Hx). simpl in *. lra.
Qed.

Lemma norm2_pos (r : list R) : nonzero r -> 0 < norm2 r.
Proof. intros Hr. unfold norm2. by apply sqrt_lt_R0, Rsum_squares_pos. Qed.

Lemma Rsum_squares_scale (n : R) (r : list R) :
  n <> 0 ->
  Rsum (map (fun x => x ^ 2) (map (fun x => x / n) r))
  = Rsum (map (fun x => x ^ 2) r) / n ^ 2.
Proof.
  intros Hn. induction r as [|a r IH]; simpl.
  - field. done.
  - simpl in IH. rewrite IH. field. done.
Qed.

(** Dividing a non-zero vector by its norm gives a vector of norm 1. *)
Lemma norm2_normalized (r : list R) :
  nonzero r -> norm2 (map (fun x => x / norm2 r) r) = 1.
Proof.
  intros Hr. pose proof (norm2_pos r Hr) as Hpos.
  unfold norm2 at 1. rewrite Rsum_squares_scale by lra.
  replace (norm2 r ^ 2) with (Rsum (map (fun x => x ^ 2) r)).
  - unfold Rdiv. rewrite Rinv_r; [apply sqrt_1|].
    pose proof (Rsum_squares_pos r Hr). lra.
  - unfold norm2. simpl. rewrite Rmult_1_r, sqrt_sqrt; [done|].
    apply Rsum_squares_nonneg.
Qed.

End Normalisation.

(** ** Entries of a product with a transposed matrix *)

Section Entries.

Lemma map_lookup_total_seq {A} `{Inhabited A} (r : list A) :
  map (fun k => r !!! k) (seq 0 (length r)) = r.
Proof.
  apply list_eq. intros i. rewrite list_lookup_fmap.
  destruct (decide (i < length r)%nat) as [Hi|Hi].
  - rewrite lookup_seq_lt by done. simpl.
    symmetry. by apply list_lookup_lookup_total_lt.
  - rewrite lookup_seq_ge by lia. simpl.
    symmetry. apply lookup_ge_None. lia.
Qed.

(** Column [j] of [m.T] is row [j] of [m]. *)
Lemma col_transpose (m : matrix R) (j : nat) (r : list R) :
  wf m -> rows m !! j = Some r -> col j (transpose m) = r.
Proof.
  intros Hwf Hr. unfold col, transpose. simpl.
  rewrite <- list_fmap_compose.
  assert (length r = ncols m) as <-.
  { wf_length Hwf. }
  rewrite <- (map_lookup_total_seq r) at 2.
  apply map_ext. intros k. simpl.
  rewrite (list_lookup_total_fmap (fun r0 : list R => r0 !!! k) (rows m) j)
    by (by eapply lookup_lt_Some).
  by rewrite (list_lookup_total_correct _ _ _ Hr).
Qed.

Lemma dot_entry (a b s : matrix R) (i j : nat) (ra : list R) :
  dot a b = Some s ->
  rows a !! i = Some ra ->
  (j < ncols b)%nat ->
  rows s !! i ≫= (fun row => row !! j)
  = Some (Rsum (zip_with Rmult ra (col j b))).
Proof.
  intros [_ ->]%dot_Some Hra Hj. simpl.
  rewrite list_lookup_fmap, Hra. simpl.
  by rewrite list_lookup_fmap, lookup_seq_lt.
Qed.

End Entries.

(** ** Which representations are normalised *)

Section Cosine.
Context (train_gps_mean train_gps_std : R * R).
Local Open Scope R_scope.

Abbreviation prefix_representation :=
  (Model.prefix_representation train_gps_mean train_gps_std).
Abbreviation encoded_candidates :=
  (Model.encoded_candidates train_gps_mean train_gps_std).
Abbreviation candidate_representation :=
  (Model.candidate_representation train_gps_mean train_gps_std).

(** C5: with [normalize_representation] set, the representation that is
    scored for a candidate whose encoding is not the zero vector has
    Euclidean norm 1. *)
Theorem normalized_candidate_has_unit_norm (self : Model.t)
    (kwargs : gmap string array) (e : matrix R) (b : nat) (r : list R) :
  Model.normalize_representation (Model.cfg self) = true ->
  encoded_candidates self kwargs = Some e ->
  rows e !! b = Some r ->
  nonzero r ->
  exists c r', candidate_representation self kwargs = Some c
    /\ rows c !! b = Some r' /\ norm2 r' = 1.
Proof.
  intros Hflag He Hr Hnz.
  exists (normalize_rows e), (map (fun x => x / norm2 r) r).
  unfold Model.candidate_representation. rewrite He, Hflag. simpl.
  split_and!; [done | | by apply norm2_normalized].
  by rewrite list_lookup_fmap, Hr.
Qed.

(** C10: with [normalize_representation] set, the score of prefix [i]
    against candidate [j] is the dot product of the prefix representation
    as the encoder returned it with the candidate encoding divided by its
    norm; the latter has norm 1 (when it is not zero), the former is not
    rescaled. *)
Theorem similarity_normalizes_candidates_only (self : Model.t)
    (kwargs : gmap string array) (p e s : matrix R) (i j : nat)
    (pi ej : list R) :
  Model.normalize_representation (Model.cfg self) = true ->
  prefix_representation self kwargs = Some p ->
  encoded_candidates self kwargs = Some e ->
  wf e ->
  Model.similarity_score train_gps_mean train_gps_std self kwargs = Some s ->
  rows p !! i = Some pi ->
  rows e !! j = Some ej ->
  rows s !! i ≫= (fun row => row !! j)
    = Some (Rsum (zip_with Rmult pi (map (fun x => x / norm2 ej) ej)))
  /\ (nonzero ej -> norm2 (map (fun x => x / norm2 ej) ej) = 1).
Proof.
  intros Hflag Hp He Hwf Hs Hpi Hej. split; [|apply norm2_normalized].
  unfold Model.similarity_score, Model.candidate_representation in Hs.
  rewrite Hp, He, Hflag in Hs. simpl in Hs.
  assert (wf (normalize_rows e)) as Hwf'.
  { unfold wf, normalize_rows in *. simpl. rewrite Forall_fmap.
    eapply Forall_impl; [exact Hwf|]. intros r Hr. simpl. by rewrite length_map. }
  assert (rows (normalize_rows e) !! j = Some (map (fun x => x / norm2 ej) ej)) as Hj.
  { unfold normalize_rows. simpl. by rewrite list_lookup_fmap, Hej. }
  rewrite (dot_entry _ _ _ i j pi Hs Hpi).
  - by rewrite (col_transpose _ _ _ Hwf' Hj).
  - unfold transpose. simpl. unfold nrows, normalize_rows. simpl.
    rewrite length_map. by eapply lookup_lt_Some.
Qed.

End Cosine.

(** ** Declared inputs and the encoder of the candidates *)

Section Wiring.
Context (train_gps_mean train_gps_std : R * R).

(** C8: the input names declared by the encoder, by [predict] and by
    [cost]. *)
Theorem declared_inputs (ec : RecurrentEncoder.config) (c : Model.config) :
  let encoder := RecurrentEncoder.init ec in
  let self := Model.init c in
  RecurrentEncoder.inputs encoder
    = ce_inputs (RecurrentEncoder.context_embedder encoder)
      ++ ["latitude"; "longitude"; "latitude_mask"]
  /\ Model.predict_inputs self
    = RecurrentEncoder.inputs (Model.prefix_encoder self)
      ++ map (String.append "candidate_")
             (RecurrentEncoder.inputs (Model.candidate_encoder self))
  /\ Model.cost_inputs self
    = Model.predict_inputs self ++ ["destination_latitude"; "destination_longitude"].
Proof. done. Qed.

(** C2: what [predict] returns is computed from the output of the [apply]
    of the prefix encoder on the dict read under the [candidate_] keys:
    that output, divided by its norms when [normalize_representation] is
    set, is what the prefix representations are scored against, and
    [predict] raises whenever that dict cannot be built or that
    application raises.  Of the candidate encoder only the input names
    are used, so that replacing its bricks, its state dimension and its
    embedder's [apply] changes nothing. *)
Theorem candidates_encoded_by_prefix_encoder (c : Model.config)
    (kwargs : gmap string array) :
  Model.predict train_gps_mean train_gps_std (Model.init c) kwargs
    = (prefix_representation ←
         Model.prefix_representation train_gps_mean train_gps_std (Model.init c) kwargs;
       args ← select (String.append "candidate_")
                (RecurrentEncoder.inputs (Model.candidate_encoder (Model.init c))) kwargs;
       candidate_representation ←
         RecurrentEncoder.apply train_gps_mean train_gps_std
           (Model.prefix_encoder (Model.init c)) args;
       similarity_score ←
         dot prefix_representation
           (transpose (if Model.normalize_representation c
                       then normalize_rows candidate_representation
                       else candidate_representation));
       candidate_destination ← Model.candidate_destination kwargs;
       dot (softmax similarity_score) candidate_destination)
  /\ Model.encoded_candidates train_gps_mean train_gps_std (Model.init c) kwargs
    = select (String.append "candidate_")
             (RecurrentEncoder.inputs (Model.candidate_encoder (Model.init c))) kwargs
      ≫= RecurrentEncoder.apply train_gps_mean train_gps_std
            (Model.prefix_encoder (Model.init c))
  /\ forall dim' apply' rec' mlp',
      let ec := Model.candidate_encoder_config c in
      let ec' :=
        {| RecurrentEncoder.rec_state_dim := dim';
           RecurrentEncoder.embedder :=
             {| ce_inputs := ce_inputs (RecurrentEncoder.embedder ec);
                ce_apply := apply' |};
           RecurrentEncoder.rec_brick := rec';
           RecurrentEncoder.mlp_brick := mlp' |} in
      let c' :=
        {| Model.prefix_encoder_config := Model.prefix_encoder_config c;
           Model.candidate_encoder_config := ec';
           Model.normalize_representation := Model.normalize_representation c |} in
      Model.predict train_gps_mean train_gps_std (Model.init c') kwargs
      = Model.predict train_gps_mean train_gps_std (Model.init c) kwargs.
Proof.
  split; [|split; [done | intros; reflexivity]].
  unfold Model.predict, Model.similarity, Model.similarity_score,
    Model.candidate_representation, Model.encoded_candidates.
  destruct (Model.prefix_representation _ _ _ _) as [p|]; [|reflexivity].
  change (Some p ≫= ?f) with (f p). cbv beta.
  destruct (select _ _ _) as [args|]; [|reflexivity].
  change (Some args ≫= ?f) with (f args). cbv beta.
  destruct (RecurrentEncoder.apply _ _ _ args) as [e|]; [|reflexivity].
  change (Some e ≫= ?f) with (f e). cbv beta.
  change (Some ?x ≫= ?f) with (f x). cbv beta.
  change (Model.normalize_representation (Model.cfg (Model.init c)))
    with (Model.normalize_representation c).
  by destruct (dot p _) as [s|].
Qed.

End Wiring.

(** ** The index of the last valid time step *)

Section LastIndex.
Local Open Scope Z_scope.

Lemma cast_int64_small (z : Z) : - 2 ^ 63 <= z < 2 ^ 63 -> cast_int64 z = z.
Proof. intros Hz. unfold cast_int64. rewrite Z.mod_small; lia. Qed.

Lemma Zsum_binary (r : list Z) :
  Forall (fun x => x = 0 \/ x = 1) r -> 0 <= Zsum r <= Z.of_nat (length r).
Proof.
  induction 1 as [|x r Hx _ IH]; simpl; [lia|].
  destruct Hx as [-> | ->]; lia.
Qed.

(** Summing the transposed mask along its first axis gives the sums of
    the rows of the mask. *)
Lemma sum_axis0_transpose (m : matrix Z) :
  wf m -> sum_axis0 (transpose m) = sum_axis1 m.
Proof.
  intros Hwf. unfold sum_axis0, sum_axis1, transpose, nrows. simpl.
  apply list_eq. intros b. rewrite !list_lookup_fmap.
  destruct (rows m !! b) as [r|] eqn:Hr; simpl.
  - rewrite lookup_seq_lt by (by eapply lookup_lt_Some). simpl.
    do 2 f_equal. rewrite <- list_fmap_compose.
    assert (length r = ncols m) as <-.
    { unfold wf in Hwf. rewrite Forall_forall in Hwf.
      apply Hwf. by eapply list_elem_of_lookup_2. }
    rewrite <- (map_lookup_total_seq r) at 2.
    apply map_ext. intros t. simpl.
    rewrite (list_lookup_total_fmap (fun r0 : list Z => r0 !!! t) (rows m) b)
      by (by eapply lookup_lt_Some).
    by rewrite (list_lookup_total_correct _ _ _ Hr).
  - rewrite lookup_seq_ge; [done|]. apply lookup_ge_None in Hr. lia.
Qed.

Lemma last_id_transpose (m : matrix Z) :
  wf m -> RecurrentEncoder.last_id (transpose m) = Model.candidate_last m.
Proof.
  intros Hwf. unfold RecurrentEncoder.last_id, Model.candidate_last.
  by rewrite sum_axis0_transpose.
Qed.

Lemma candidate_last_lookup (m : matrix Z) (b : nat) (r : list Z) :
  rows m !! b = Some r ->
  Model.candidate_last m !! b = Some (cast_int64 (Zsum r - 1)).
Proof.
  intros Hr. unfold Model.candidate_last, sum_axis1.
  by rewrite !list_lookup_fmap, Hr.
Qed.

(** C7: on a binary mask, a row with at least one valid position makes both
    last-valid-index computations return the same index, which is not
    negative and is smaller than the number of time steps; a row with no
    valid position makes them return -1. *)
Theorem last_valid_index_in_range (mask : matrix Z) (b : nat) (r : list Z) :
  wf mask ->
  binary mask ->
  Z.of_nat (ncols mask) < 2 ^ 63 ->
  rows mask !! b = Some r ->
  (1 <= Zsum r ->
     exists i, RecurrentEncoder.last_id (transpose mask) !! b = Some i
       /\ Model.candidate_last mask !! b = Some i
       /\ i = Zsum r - 1
       /\ 0 <= i < Z.of_nat (ncols mask))
  /\ (Zsum r = 0 ->
       RecurrentEncoder.last_id (transpose mask) !! b = Some (-1)
       /\ Model.candidate_last mask !! b = Some (-1)).
Proof.
  intros Hwf Hbin HT Hr.
  assert (length r = ncols mask) as Hlen.
  { wf_length Hwf. }
  assert (0 <= Zsum r <= Z.of_nat (ncols mask)) as Hsum.
  { rewrite <- Hlen. apply Zsum_binary.
    unfold binary in Hbin. rewrite Forall_forall in Hbin.
    apply Hbin. by eapply list_elem_of_lookup_2. }
  rewrite last_id_transpose by done.
  rewrite (candidate_last_lookup _ _ _ Hr).
  rewrite cast_int64_small by lia.
  split.
  - intros H1. exists (Zsum r - 1). split_and!; [done | done | done | lia | lia].
  - intros ->. done.
Qed.

End LastIndex.

(** ** The forward state that the encoder extracts *)

Section ForwardState.

Lemma arange_lookup (n b : nat) : (b < n)%nat -> arange n !! b = Some (Z.of_nat b).
Proof. intros Hb. unfold arange. by rewrite list_lookup_fmap, lookup_seq_lt. Qed.

Lemma last_id_length (m : matrix Z) :
  length (RecurrentEncoder.last_id m) = ncols m.
Proof.
  unfold RecurrentEncoder.last_id, sum_axis0. by rewrite !length_map, length_seq.
Qed.

(** What [path[last_id - 1, arange(...)][:, :d]] holds for example [b]: the
    forward state at the time step whose index is the number of valid
    positions minus 2, read as numpy reads a negative index. *)
Lemma forward_component_index (d : nat) (path : list (matrix R))
    (mask : matrix Z) (first last : matrix R) (b : nat) (r : list Z) :
  wf mask ->
  binary mask ->
  (Z.of_nat (ncols mask) < 2 ^ 63)%Z ->
  RecurrentEncoder.path_representation d path
    (RecurrentEncoder.last_id (transpose mask)) = Some (first, last) ->
  rows mask !! b = Some r ->
  is_Some (rows last !! b)
  /\ rows last !! b = forward_state d path (Zsum r - 2) b.
Proof.
  intros Hwf Hbin HT Hpr Hr.
  assert (length r = ncols mask) as Hlen.
  { wf_length Hwf. }
  assert (0 <= Zsum r <= Z.of_nat (ncols mask))%Z as Hsum.
  { rewrite <- Hlen. apply Zsum_binary.
    unfold binary in Hbin. rewrite Forall_forall in Hbin.
    apply Hbin. by eapply list_elem_of_lookup_2. }
  unfold RecurrentEncoder.path_representation in Hpr.
  apply bind_Some in Hpr as (p0 & _ & Hpr).
  apply bind_Some in Hpr as (fw & Hfw & [= <- <-]).
  unfold index3 in Hfw. apply bind_Some in Hfw as (rs & Hrs & [= <-]).
  rewrite mapM_Some in Hrs.
  assert (zip (map (fun i => cast_int64 (i - 1))
                   (RecurrentEncoder.last_id (transpose mask)))
              (arange (length (RecurrentEncoder.last_id (transpose mask)))) !! b
          = Some ((Zsum r - 2)%Z, Z.of_nat b)) as Hb.
  { rewrite lookup_zip_with, list_lookup_fmap.
    rewrite last_id_transpose by done.
    rewrite (candidate_last_lookup _ _ _ Hr). simpl.
    rewrite arange_lookup.
    - simpl. rewrite !cast_int64_small by (rewrite ?cast_int64_small; lia).
      do 2 f_equal. lia.
    - unfold Model.candidate_last, sum_axis1. rewrite !length_map.
      by eapply lookup_lt_Some. }
  destruct (Forall2_lookup_l _ _ _ _ _ Hrs Hb) as (y & Hy & Hf). simpl in Hf.
  unfold cols_first. simpl. rewrite list_lookup_fmap, Hy. simpl.
  split; [done|].
  unfold forward_state.
  apply bind_Some in Hf as (m & -> & Hm). simpl. by rewrite Hm.
Qed.

(** C1, at the mask row [1,1,1,0,0]: five time steps with the states
    [s0 .. s4] of one example.  The extracted forward component is the
    forward state at index 1; the forward state at the last valid index, 2,
    is another one. *)
Theorem forward_state_one_step_early (d c : nat) (s0 s1 s2 s3 s4 : list R) :
  let path := [Matrix c [s0]; Matrix c [s1]; Matrix c [s2];
               Matrix c [s3]; Matrix c [s4]] in
  let mask := Matrix 5 [[1; 1; 1; 0; 0]]%Z in
  snd <$> RecurrentEncoder.path_representation d path
            (RecurrentEncoder.last_id (transpose mask))
    = Some (Matrix (d `min` c) [take d s1])
  /\ forward_state d path 1 0 = Some (take d s1)
  /\ forward_state d path 2 0 = Some (take d s2).
Proof. done. Qed.

End ForwardState.

(** ** Reordered lists *)

Section Permute.
Context {A : Type} `{Inhabited A}.
Implicit Types (σ : list nat) (l k : list A).

Lemma perm_length σ (n : nat) : σ ≡ₚ seq 0 n -> length σ = n.
Proof. intros Hσ. by rewrite Hσ, length_seq. Qed.

Lemma perm_lt σ (n i : nat) : σ ≡ₚ seq 0 n -> i ∈ σ -> (i < n)%nat.
Proof. intros Hσ Hi. rewrite Hσ in Hi. apply elem_of_seq in Hi. lia. Qed.

Lemma permute_length σ l : length (permute σ l) = length σ.
Proof. unfold permute. by rewrite length_fmap. Qed.

Lemma permute_Permutation σ l : σ ≡ₚ seq 0 (length l) -> permute σ l ≡ₚ l.
Proof.
  intros Hσ. unfold permute. rewrite Hσ.
  by rewrite (map_lookup_total_seq l).
Qed.

Lemma permute_lookup σ l (b i : nat) :
  σ ≡ₚ seq 0 (length l) -> σ !! b = Some i -> permute σ l !! b = l !! i.
Proof.
  intros Hσ Hb. unfold permute. rewrite list_lookup_fmap, Hb. simpl.
  symmetry. apply list_lookup_lookup_total_lt.
  eapply perm_lt; [done|]. by eapply list_elem_of_lookup_2.
Qed.

Lemma permute_fmap {B} `{Inhabited B} (f : A -> B) σ l :
  σ ≡ₚ seq 0 (length l) -> f <$> permute σ l = permute σ (f <$> l).
Proof.
  intros Hσ. unfold permute. rewrite <- list_fmap_compose.
  apply list_fmap_ext. intros b i Hb. simpl.
  symmetry. apply list_lookup_total_fmap.
  eapply perm_lt; [done|]. by eapply list_elem_of_lookup_2.
Qed.

Lemma permute_seq {B} `{Inhabited B} (g : nat -> B) σ (n : nat) :
  σ ≡ₚ seq 0 n -> permute σ (g <$> seq 0 n) = g <$> σ.
Proof.
  intros Hσ. unfold permute. apply list_fmap_ext. intros b i Hb.
  assert (i < n)%nat by (eapply perm_lt; [done|]; by eapply list_elem_of_lookup_2).
  rewrite (list_lookup_total_fmap g (seq 0 n) i) by (by rewrite length_seq).
  by rewrite lookup_total_seq_lt.
Qed.

Lemma mapM_permute {B} `{Inhabited B} (f : A -> option B) σ l :
  σ ≡ₚ seq 0 (length l) -> mapM f (permute σ l) = permute σ <$> mapM f l.
Proof.
  intros Hσ. destruct (mapM f l) as [k|] eqn:Hk; simpl.
  - apply mapM_Some. apply mapM_Some in Hk.
    pose proof (Forall2_length _ _ _ Hk) as Hlen.
    apply Forall2_same_length_lookup. split.
    { unfold permute. by rewrite !length_fmap. }
    intros b x y Hx Hy.
    unfold permute in Hx, Hy.
    rewrite list_lookup_fmap in Hx. rewrite list_lookup_fmap in Hy.
    destruct (σ !! b) as [i|] eqn:Hb; [|done]. simpl in *.
    injection Hx as <-. injection Hy as <-.
    assert (i < length l)%nat
      by (eapply perm_lt; [done|]; by eapply list_elem_of_lookup_2).
    apply (Forall2_lookup_lr (fun x y => f x = Some y) l k i); [exact Hk | |].
    + by apply list_lookup_lookup_total_lt.
    + apply list_lookup_lookup_total_lt. lia.
  - apply mapM_None. apply mapM_None in Hk.
    by rewrite (permute_Permutation σ l Hσ).
Qed.

End Permute.

Section PermuteZip.
Context {A B C : Type} `{Inhabited A, Inhabited B, Inhabited C}.

Lemma permute_zip_with (f : A -> B -> C) (σ : list nat) (l : list A) (k : list B) :
  σ ≡ₚ seq 0 (length l) -> length k = length l ->
  zip_with f (permute σ l) (permute σ k) = permute σ (zip_with f l k).
Proof.
  intros Hσ Hlen. apply list_eq. intros b.
  rewrite lookup_zip_with. unfold permute at 3. rewrite list_lookup_fmap.
  destruct (σ !! b) as [i|] eqn:Hb.
  - assert (i < length l)%nat
      by (eapply perm_lt; [done|]; by eapply list_elem_of_lookup_2).
    rewrite (permute_lookup σ l b i Hσ Hb).
    rewrite (permute_lookup σ k b i) by (by rewrite ?Hlen).
    simpl. rewrite (list_lookup_lookup_total_lt l i) by done.
    rewrite (list_lookup_lookup_total_lt k i) by lia. simpl.
    f_equal. symmetry. apply list_lookup_total_correct.
    rewrite lookup_zip_with.
    rewrite (list_lookup_lookup_total_lt l i) by done.
    rewrite (list_lookup_lookup_total_lt k i) by lia. done.
  - unfold permute. rewrite !list_lookup_fmap, Hb. done.
Qed.

End PermuteZip.

(** ** Reordered arrays *)

Section PermuteArrays.

Lemma permute_lookup_total {A} `{Inhabited A} (σ : list nat) (l : list A) (j : nat) :
  (j < length σ)%nat -> permute σ l !!! j = l !!! (σ !!! j).
Proof.
  intros Hj. unfold permute.
  by rewrite (list_lookup_total_fmap (fun i => l !!! i) σ j).
Qed.

Lemma transpose_wf {A} `{Inhabited A} (m : matrix A) : wf (transpose m).
Proof.
  unfold wf, transpose. simpl. rewrite Forall_fmap. apply Forall_forall.
  intros j _. simpl. by rewrite length_map.
Qed.

Lemma nrows_permute_rows {A} (σ : list nat) (m : matrix A) :
  nrows (permute_rows σ m) = length σ.
Proof. unfold nrows, permute_rows. simpl. apply permute_length. Qed.

Lemma transpose_permute_rows {A} `{Inhabited A} (σ : list nat) (m : matrix A) :
  σ ≡ₚ seq 0 (nrows m) ->
  transpose (permute_rows σ m) = permute_cols σ (transpose m).
Proof.
  intros Hσ. unfold transpose, permute_cols. simpl.
  rewrite nrows_permute_rows, (perm_length σ _ Hσ). f_equal.
  rewrite <- list_fmap_compose. apply list_fmap_ext. intros _ j _. simpl.
  by apply (permute_fmap (fun r : list A => r !!! j)).
Qed.

Lemma mmap_permute_cols {A B} `{Inhabited A, Inhabited B} (f : A -> B)
    (σ : list nat) (m : matrix A) :
  wf m -> σ ≡ₚ seq 0 (ncols m) ->
  mmap f (permute_cols σ m) = permute_cols σ (mmap f m).
Proof.
  intros Hwf Hσ. unfold mmap, permute_cols. simpl. f_equal.
  rewrite <- !list_fmap_compose. apply list_fmap_ext. intros t r Hr. simpl.
  apply permute_fmap.
  unfold wf in Hwf. rewrite Forall_forall in Hwf.
  rewrite (Hwf r); [done|]. by eapply list_elem_of_lookup_2.
Qed.

Lemma mmap_wf {A B} (f : A -> B) (m : matrix A) : wf m -> wf (mmap f m).
Proof.
  unfold wf, mmap. simpl. rewrite Forall_fmap. intros Hm.
  eapply Forall_impl; [exact Hm|]. intros r Hr. simpl. by rewrite length_map.
Qed.

Lemma stack_channels_permute (σ : list nat) (a b : matrix R) :
  wf a -> wf b -> σ ≡ₚ seq 0 (ncols a) ->
  RecurrentEncoder.stack_channels (permute_cols σ a) (permute_cols σ b)
  = (fun x : list (matrix R) => permute_rows σ <$> x)
      <$> RecurrentEncoder.stack_channels a b.
Proof.
  intros Ha Hb Hσ. unfold RecurrentEncoder.stack_channels.
  unfold nrows, permute_cols. simpl. rewrite !length_fmap.
  case_decide as Hshape; [|done]. simpl. f_equal.
  destruct Hshape as [Hc _].
  apply list_eq. intros t.
  rewrite list_lookup_fmap, !lookup_zip_with, !list_lookup_fmap.
  destruct (rows a !! t) as [ra|] eqn:Hra; [|done]. simpl.
  destruct (rows b !! t) as [rb|] eqn:Hrb; [|done]. simpl.
  unfold permute_rows. simpl. do 2 f_equal.
  unfold wf in Ha, Hb. rewrite Forall_forall in Ha, Hb.
  assert (length ra = ncols a) as Hla by (apply Ha; by eapply list_elem_of_lookup_2).
  assert (length rb = ncols b) as Hlb by (apply Hb; by eapply list_elem_of_lookup_2).
  apply permute_zip_with; [by rewrite Hla | congruence].
Qed.

Lemma stack_channels_shape (a b : matrix R) (x : list (matrix R)) :
  wf a -> wf b -> RecurrentEncoder.stack_channels a b = Some x ->
  Forall (fun p => nrows p = ncols a) x.
Proof.
  intros Ha Hb. unfold RecurrentEncoder.stack_channels.
  case_decide as Hshape; [|done]. intros [= <-]. destruct Hshape as [Hc _].
  apply Forall_forall. intros p Hp.
  apply list_elem_of_lookup in Hp as (t & Hp).
  apply lookup_zip_with_Some in Hp as (ra & rb & -> & Hra & Hrb).
  unfold nrows. simpl. rewrite length_zip_with.
  unfold wf in Ha, Hb. rewrite Forall_forall in Ha, Hb.
  rewrite (Ha ra), (Hb rb) by (by eapply list_elem_of_lookup_2). lia.
Qed.

Lemma last_id_permute_cols (σ : list nat) (mask : matrix Z) :
  σ ≡ₚ seq 0 (ncols mask) ->
  RecurrentEncoder.last_id (permute_cols σ mask)
  = permute σ (RecurrentEncoder.last_id mask).
Proof.
  intros Hσ. unfold RecurrentEncoder.last_id, sum_axis0, permute_cols. simpl.
  rewrite <- !list_fmap_compose.
  rewrite (permute_seq _ σ _ Hσ).
  match goal with |- _ = ?g <$> σ =>
    transitivity (g <$> ((fun k => σ !!! k) <$> seq 0 (length σ)));
      [|by rewrite (map_lookup_total_seq σ)] end.
  rewrite (perm_length σ _ Hσ).
  rewrite <- list_fmap_compose. apply list_fmap_ext. intros i j Hj. simpl.
  apply lookup_seq in Hj as [-> Hj]. simpl.
  do 3 f_equal. rewrite <- list_fmap_compose.
  apply list_fmap_ext. intros _ r _. simpl.
  apply permute_lookup_total. by rewrite (perm_length σ _ Hσ).
Qed.

Lemma np_index_fmap {A B} (f : A -> B) (l : list A) (i : Z) :
  np_index (f <$> l) i = f <$> np_index l i.
Proof.
  unfold np_index. rewrite length_fmap.
  repeat case_decide; by rewrite ?list_lookup_fmap.
Qed.

Lemma np_index_nat {A} (l : list A) (b : nat) :
  np_index l (Z.of_nat b) = l !! b.
Proof.
  unfold np_index. case_decide as Hb.
  - by rewrite Nat2Z.id.
  - rewrite decide_False by lia. symmetry. apply lookup_ge_None. lia.
Qed.

End PermuteArrays.

(** ** Reordered recurrent states *)

Section PermutePath.

Lemma mapM_ext_lookup {A A' B} (f : A -> option B) (g : A' -> option B)
    (l : list A) (l' : list A') :
  length l = length l' ->
  (forall b x x', l !! b = Some x -> l' !! b = Some x' -> f x = g x') ->
  mapM f l = mapM g l'.
Proof.
  revert l'. induction l as [|x l IH]; intros [|x' l'] Hlen Hfg; try done.
  change (mapM f (x :: l)) with (f x ≫= fun y => mapM f l ≫= fun k => Some (y :: k)).
  change (mapM g (x' :: l')) with (g x' ≫= fun y => mapM g l' ≫= fun k => Some (y :: k)).
  rewrite (Hfg 0%nat x x') by done.
  rewrite (IH l'); [done | by injection Hlen |].
  intros b y y' Hy Hy'. by apply (Hfg (S b)).
Qed.

Lemma np_index_elem_of {A} (l : list A) (i : Z) (x : A) :
  np_index l i = Some x -> x ∈ l.
Proof.
  unfold np_index. repeat case_decide; [| |done]; apply list_elem_of_lookup_2.
Qed.

Lemma cols_first_permute_rows (d : nat) (σ : list nat) (m : matrix R) :
  σ ≡ₚ seq 0 (nrows m) ->
  cols_first d (permute_rows σ m) = permute_rows σ (cols_first d m).
Proof.
  intros Hσ. unfold cols_first, permute_rows. simpl. f_equal.
  by apply (permute_fmap (take d)).
Qed.

Lemma cols_last_permute_rows (d : nat) (σ : list nat) (m : matrix R) :
  σ ≡ₚ seq 0 (nrows m) ->
  cols_last d (permute_rows σ m) = permute_rows σ (cols_last d m).
Proof.
  intros Hσ. unfold cols_last. case_decide; [done|].
  unfold permute_rows. simpl. f_equal.
  by apply (permute_fmap (fun r : list R => drop (length r - d) r)).
Qed.

Lemma nrows_cols_first (d : nat) (m : matrix R) : nrows (cols_first d m) = nrows m.
Proof. unfold nrows, cols_first. simpl. by rewrite length_map. Qed.

Lemma nrows_cols_last (d : nat) (m : matrix R) : nrows (cols_last d m) = nrows m.
Proof.
  unfold cols_last. case_decide; [done|]. unfold nrows. simpl. by rewrite length_map.
Qed.

Lemma index3_nrows (p : list (matrix R)) (I J : list Z) (m : matrix R) :
  length I = length J -> index3 p I J = Some m -> nrows m = length I.
Proof.
  intros Hlen. unfold index3. intros (rs & Hrs & [= <-])%bind_Some.
  apply mapM_Some, Forall2_length in Hrs.
  unfold nrows. simpl. rewrite <- Hrs, length_zip_with. lia.
Qed.

Lemma arange_length (n : nat) : length (arange n) = n.
Proof. unfold arange. by rewrite length_map, length_seq. Qed.

Lemma index3_permute (σ : list nat) (n : nat) (path : list (matrix R)) (I : list Z) :
  σ ≡ₚ seq 0 n ->
  Forall (fun p => nrows p = n) path ->
  length I = n ->
  index3 (permute_rows σ <$> path) (permute σ I) (arange n)
  = permute_rows σ <$> index3 path I (arange n).
Proof.
  intros Hσ Hpath HI. unfold index3.
  assert (mapM (fun ij : Z * Z =>
                  np_index (permute_rows σ <$> path) ij.1
                    ≫= fun m => np_index (rows m) ij.2)
               (zip (permute σ I) (arange n))
          = mapM (fun ij : Z * Z =>
                    np_index path ij.1 ≫= fun m => np_index (rows m) ij.2)
                 (permute σ (zip I (arange n)))) as ->.
  { unfold arange.
    change (map Z.of_nat (seq 0 n)) with (Z.of_nat <$> seq 0 n).
    rewrite <- (permute_zip_with pair σ I (Z.of_nat <$> seq 0 n))
      by (by rewrite ?HI, ?length_fmap, ?length_seq).
    rewrite (permute_seq Z.of_nat σ n Hσ).
    apply mapM_ext_lookup.
    { by rewrite !length_zip_with, !length_fmap, length_seq, (perm_length σ n Hσ). }
    intros b [i j] [i' j'] Hb Hb'. simpl.
    apply lookup_zip_with_Some in Hb as (? & ? & [= <- <-] & Hi & Hj).
    apply lookup_zip_with_Some in Hb' as (? & ? & [= <- <-] & Hi' & Hj').
    assert (i' = i) as -> by congruence.
    rewrite list_lookup_fmap in Hj, Hj'.
    apply fmap_Some in Hj as (b' & [-> Hbn]%lookup_seq & ->).
    apply fmap_Some in Hj' as (k & Hk & ->). simpl.
    rewrite np_index_fmap.
    destruct (np_index path i) as [m|] eqn:Hm; [|done]. simpl.
    rewrite !np_index_nat.
    apply permute_lookup; [|done].
    rewrite Forall_forall in Hpath. unfold nrows in Hpath.
    rewrite (Hpath m); [done|]. by eapply np_index_elem_of. }
  rewrite mapM_permute
    by (by rewrite length_zip_with, arange_length, HI, Nat.min_id).
  destruct (mapM _ (zip I (arange n))) as [rs|] eqn:Hrs; [|done]. simpl.
  unfold permute_rows. simpl. do 2 f_equal.
  by destruct path.
Qed.

Lemma path_representation_permute (d : nat) (σ : list nat) (n : nat)
    (path : list (matrix R)) (lid : list Z) :
  σ ≡ₚ seq 0 n ->
  Forall (fun p => nrows p = n) path ->
  length lid = n ->
  RecurrentEncoder.path_representation d (permute_rows σ <$> path) (permute σ lid)
  = (fun pr : matrix R * matrix R => (permute_rows σ pr.1, permute_rows σ pr.2))
      <$> RecurrentEncoder.path_representation d path lid
  /\ forall pr, RecurrentEncoder.path_representation d path lid = Some pr ->
       nrows pr.1 = n /\ nrows pr.2 = n.
Proof.
  intros Hσ Hpath Hlid. unfold RecurrentEncoder.path_representation.
  rewrite np_index_fmap, permute_length, Hlid, (perm_length σ n Hσ).
  destruct (np_index path 0) as [p0|] eqn:Hp0; [|done]. simpl.
  assert (nrows p0 = n) as Hn0.
  { rewrite Forall_forall in Hpath. apply Hpath. by eapply np_index_elem_of. }
  rewrite (permute_fmap (fun i => cast_int64 (i - 1)) σ lid) by (by rewrite Hlid).
  rewrite (index3_permute σ n) by (by rewrite ?length_map).
  destruct (index3 path _ (arange n)) as [last|] eqn:Hlast; [|done]. simpl.
  assert (nrows last = n) as Hnl.
  { apply index3_nrows in Hlast; [|by rewrite length_map, arange_length].
    by rewrite Hlast, length_map. }
  split.
  - rewrite cols_last_permute_rows, cols_first_permute_rows by congruence. done.
  - intros pr [= <-]. simpl. by rewrite nrows_cols_last, nrows_cols_first.
Qed.

End PermutePath.

(** ** Reordered keyword arguments *)

Section PermuteArgs.

Lemma select_into_fmap (g : array -> array) (key : string -> string)
    (names : list string) (kwargs d : gmap string array) :
  select_into key names (g <$> kwargs) (g <$> d)
  = (fun d' : gmap string array => g <$> d') <$> select_into key names kwargs d.
Proof.
  revert d. induction names as [|name names IH]; intros d; simpl; [done|].
  rewrite lookup_fmap. destruct (kwargs !! key name) as [v|]; simpl; [|done].
  by rewrite <- fmap_insert, IH.
Qed.

Lemma select_fmap (g : array -> array) (key : string -> string)
    (names : list string) (kwargs : gmap string array) :
  select key names (g <$> kwargs)
  = (fun d' : gmap string array => g <$> d') <$> select key names kwargs.
Proof.
  unfold select. rewrite <- (select_into_fmap g key names kwargs ∅).
  by rewrite fmap_empty.
Qed.

Lemma select_into_ext (key : string -> string) (names : list string)
    (kwargs kwargs' d : gmap string array) :
  (forall name, name ∈ names -> kwargs !! key name = kwargs' !! key name) ->
  select_into key names kwargs d = select_into key names kwargs' d.
Proof.
  revert d. induction names as [|name names IH]; intros d Hext; simpl; [done|].
  rewrite <- (Hext name) by left.
  destruct (kwargs !! key name) as [v|]; simpl; [|done].
  apply IH. intros name' Hname'. apply Hext. by right.
Qed.

Lemma select_into_values (P : array -> Prop) (key : string -> string)
    (names : list string) (kwargs d d' : gmap string array) :
  (forall name v, kwargs !! key name = Some v -> P v) ->
  (forall k v, d !! k = Some v -> P v) ->
  select_into key names kwargs d = Some d' ->
  forall k v, d' !! k = Some v -> P v.
Proof.
  intros Hkw. revert d. induction names as [|name names IH]; intros d Hd; simpl.
  - by intros [= <-].
  - intros (v & Hv & Hsel)%bind_Some. apply (IH (<[name:=v]> d)); [|done].
    intros k v' Hk.
    apply lookup_insert_Some in Hk as [[_ <-]|[_ Hk]]; [by eapply Hkw | by eapply Hd].
Qed.

Lemma select_values (P : array -> Prop) (key : string -> string)
    (names : list string) (kwargs d' : gmap string array) :
  (forall name v, kwargs !! key name = Some v -> P v) ->
  select key names kwargs = Some d' ->
  forall k v, d' !! k = Some v -> P v.
Proof.
  intros Hkw Hsel. eapply select_into_values; [exact Hkw | | exact Hsel].
  intros k v Hk. by rewrite lookup_empty in Hk.
Qed.

Lemma hconcat_permute (σ : list nat) (n : nat) (a b : matrix R) :
  σ ≡ₚ seq 0 n -> nrows a = n -> nrows b = n ->
  hconcat (permute_rows σ a) (permute_rows σ b) = permute_rows σ <$> hconcat a b
  /\ forall m, hconcat a b = Some m -> nrows m = n.
Proof.
  intros Hσ Ha Hb. unfold hconcat.
  rewrite !nrows_permute_rows. rewrite !decide_True by congruence. simpl.
  split.
  - unfold permute_rows. simpl. do 2 f_equal.
    apply permute_zip_with; unfold nrows in *; congruence.
  - intros m [= <-]. unfold nrows in *. simpl. rewrite length_zip_with. lia.
Qed.

Lemma concatenate_axis1_permute (σ : list nat) (n : nat) (ms : list (matrix R)) :
  σ ≡ₚ seq 0 n -> Forall (fun m => nrows m = n) ms ->
  concatenate_axis1 (permute_rows σ <$> ms) = permute_rows σ <$> concatenate_axis1 ms
  /\ forall m, concatenate_axis1 ms = Some m -> nrows m = n.
Proof.
  intros Hσ. induction 1 as [|m ms Hm Hms IH]; [done|].
  destruct ms as [|m' ms]; [split; [done | by intros ? [= <-]]|].
  destruct IH as [IH1 IH2].
  change (concatenate_axis1 (m :: m' :: ms))
    with (concatenate_axis1 (m' :: ms) ≫= hconcat m).
  change (concatenate_axis1 (permute_rows σ <$> m :: m' :: ms))
    with (concatenate_axis1 (permute_rows σ <$> m' :: ms)
            ≫= hconcat (permute_rows σ m)).
  rewrite IH1.
  destruct (concatenate_axis1 (m' :: ms)) as [c|]; [|done]. simpl.
  apply (hconcat_permute σ n m c Hσ Hm). by apply IH2.
Qed.

Lemma as_floats_permute (σ : list nat) (o : option array) :
  (permute_array σ <$> o) ≫= as_floats = permute_rows σ <$> (o ≫= as_floats).
Proof. by destruct o as [[]|]. Qed.

Lemma as_ints_permute (σ : list nat) (o : option array) :
  (permute_array σ <$> o) ≫= as_ints = permute_rows σ <$> (o ≫= as_ints).
Proof. by destruct o as [[]|]. Qed.

Lemma as_floats_batch_size (o : option array) (a : matrix R) (n : nat) :
  (forall v, o = Some v -> batch_size v = n) -> o ≫= as_floats = Some a -> nrows a = n.
Proof. destruct o as [[]|]; try done. simpl. intros Hn [= <-]. by apply (Hn _ eq_refl). Qed.

Lemma as_ints_batch_size (o : option array) (a : matrix Z) (n : nat) :
  (forall v, o = Some v -> batch_size v = n) -> o ≫= as_ints = Some a -> nrows a = n.
Proof. destruct o as [[]|]; try done. simpl. intros Hn [= <-]. by apply (Hn _ eq_refl). Qed.

End PermuteArgs.

(** ** The encoder on a reordered batch *)

Section PermuteEncoder.
Context (train_gps_mean train_gps_std : R * R).

Lemma nrows_transpose {A} `{Inhabited A} (m : matrix A) :
  ncols (transpose m) = nrows m.
Proof. done. Qed.

(** An encoder with batchwise bricks is batchwise: on a batch whose arrays
    all hold [n] examples, reordering the examples reorders the rows of the
    representation, of which there are [n]. *)
Lemma apply_permute (self : RecurrentEncoder.t) (σ : list nat) (n : nat)
    (args : gmap string array) :
  σ ≡ₚ seq 0 n ->
  (forall k v, args !! k = Some v -> batch_size v = n) ->
  batchwise_rec (RecurrentEncoder.rec self) ->
  batchwise_embedder (RecurrentEncoder.context_embedder self) ->
  batchwise_mlp (RecurrentEncoder.rec_to_output self) ->
  RecurrentEncoder.apply train_gps_mean train_gps_std self (permute_array σ <$> args)
  = permute_rows σ
      <$> RecurrentEncoder.apply train_gps_mean train_gps_std self args
  /\ forall c, RecurrentEncoder.apply train_gps_mean train_gps_std self args = Some c ->
       nrows c = n.
Proof.
  intros Hσ Hargs Hrec Hemb Hmlp. unfold RecurrentEncoder.apply.
  rewrite !lookup_fmap, !as_floats_permute, as_ints_permute.
  destruct (args !! "latitude" ≫= as_floats) as [lat|] eqn:Hlat; [|done].
  destruct (args !! "longitude" ≫= as_floats) as [lon|] eqn:Hlon; [|done].
  destruct (args !! "latitude_mask" ≫= as_ints) as [mask|] eqn:Hmask; [|done].
  apply as_floats_batch_size with (n := n) in Hlat; [|intros v; apply Hargs].
  apply as_floats_batch_size with (n := n) in Hlon; [|intros v; apply Hargs].
  apply as_ints_batch_size with (n := n) in Hmask; [|intros v; apply Hargs].
  simpl_option.
  rewrite !transpose_permute_rows by congruence.
  rewrite !mmap_permute_cols
    by (first [apply transpose_wf | by rewrite nrows_transpose; congruence]).
  set (la := mmap _ (transpose lat)). set (lo := mmap _ (transpose lon)).
  assert (wf la) as Hla by apply mmap_wf, transpose_wf.
  assert (wf lo) as Hlo by apply mmap_wf, transpose_wf.
  assert (ncols la = n) as Hnla by (subst la; simpl; congruence).
  rewrite stack_channels_permute by (done || congruence).
  destruct (RecurrentEncoder.stack_channels la lo) as [rec_in|] eqn:Hin; [|done].
  apply stack_channels_shape in Hin; [|done..]. rewrite Hnla in Hin.
  simpl_option.
  destruct (Hrec σ rec_in (transpose mask)) as [Hrec1 Hrec2];
    [by rewrite nrows_transpose, Hmask | by rewrite nrows_transpose, Hmask
    | apply transpose_wf |].
  rewrite Hrec1.
  destruct (RecurrentEncoder.rec self rec_in (transpose mask)) as [path|] eqn:Hpath;
    [|done].
  specialize (Hrec2 path eq_refl). rewrite nrows_transpose, Hmask in Hrec2.
  simpl_option.
  rewrite last_id_permute_cols by (by rewrite nrows_transpose, Hmask).
  destruct (path_representation_permute (RecurrentEncoder.rec_state_dim
              (RecurrentEncoder.cfg self)) σ n path
              (RecurrentEncoder.last_id (transpose mask)) Hσ Hrec2) as [Hpr1 Hpr2].
  { by rewrite last_id_length, nrows_transpose. }
  rewrite Hpr1.
  destruct (RecurrentEncoder.path_representation _ path _) as [[first last]|]; [|done].
  destruct (Hpr2 _ eq_refl) as [Hfirst Hlast]. simpl in Hfirst, Hlast.
  simpl_option.
  rewrite <- !fmap_delete, select_fmap.
  destruct (select _ _ (delete "latitude" _)) as [ctx|] eqn:Hctx; [|done].
  simpl_option.
  destruct (Hemb σ n ctx Hσ) as [Hemb1 Hemb2].
  { eapply (select_values (fun v => batch_size v = n)); [|exact Hctx].
    intros k v Hk. simpl in Hk.
    apply lookup_delete_Some in Hk as [_ Hk].
    apply lookup_delete_Some in Hk as [_ Hk].
    apply lookup_delete_Some in Hk as [_ Hk]. by eapply Hargs. }
  rewrite Hemb1.
  destruct (ce_apply _ ctx) as [es|]; [|done]. specialize (Hemb2 es eq_refl).
  simpl_option.
  destruct (concatenate_axis1_permute σ n (first :: last :: es) Hσ) as [Hcat1 Hcat2].
  { by repeat constructor. }
  change (permute_rows σ first :: permute_rows σ last :: (permute_rows σ <$> es))
    with (permute_rows σ <$> first :: last :: es).
  rewrite Hcat1.
  destruct (concatenate_axis1 (first :: last :: es)) as [inputs|]; [|done].
  specialize (Hcat2 inputs eq_refl).
  simpl_option.
  destruct (Hmlp σ inputs) as [Hmlp1 Hmlp2]; [by rewrite Hcat2|].
  split; [done|]. intros c Hc. rewrite (Hmlp2 c Hc). done.
Qed.

End PermuteEncoder.

(** ** Scores, attention and destinations of reordered candidates *)

Section PermuteScores.
Local Open Scope R_scope.

Lemma wf_lookup {A} (m : matrix A) (t : nat) (r : list A) :
  wf m -> rows m !! t = Some r -> length r = ncols m.
Proof.
  unfold wf. rewrite Forall_forall. intros Hwf Hr.
  apply Hwf. by eapply list_elem_of_lookup_2.
Qed.

Lemma normalize_rows_permute (σ : list nat) (m : matrix R) :
  σ ≡ₚ seq 0 (nrows m) ->
  normalize_rows (permute_rows σ m) = permute_rows σ (normalize_rows m).
Proof.
  intros Hσ. unfold normalize_rows, permute_rows. simpl. f_equal.
  by apply (permute_fmap (fun r : list R => map (fun x => x / norm2 r) r)).
Qed.

Lemma nrows_normalize_rows (m : matrix R) : nrows (normalize_rows m) = nrows m.
Proof. unfold nrows, normalize_rows. simpl. by rewrite length_map. Qed.

Lemma dot_permute_cols (σ : list nat) (a b : matrix R) :
  σ ≡ₚ seq 0 (ncols b) ->
  dot a (permute_cols σ b) = permute_cols σ <$> dot a b.
Proof.
  intros Hσ. unfold dot.
  replace (nrows (permute_cols σ b)) with (nrows b)
    by (unfold nrows, permute_cols; simpl; by rewrite length_fmap).
  case_decide; [|done]. simpl. unfold permute_cols. simpl. do 2 f_equal.
  rewrite <- list_fmap_compose. apply list_fmap_ext. intros i ra _. simpl.
  rewrite (permute_seq _ σ _ Hσ).
  match goal with |- _ = ?g <$> σ =>
    transitivity (g <$> ((fun k => σ !!! k) <$> seq 0 (length σ)));
      [|by rewrite (map_lookup_total_seq σ)] end.
  rewrite (perm_length σ _ Hσ), <- list_fmap_compose.
  apply list_fmap_ext. intros k j Hj. apply lookup_seq in Hj as [-> Hj]. simpl.
  do 2 f_equal. rewrite <- list_fmap_compose.
  apply list_fmap_ext. intros t r _. simpl.
  apply permute_lookup_total. by rewrite (perm_length σ _ Hσ).
Qed.

Lemma softmax_row_permute (σ : list nat) (x : list R) :
  σ ≡ₚ seq 0 (length x) -> softmax_row (permute σ x) = permute σ (softmax_row x).
Proof.
  intros Hσ. unfold softmax_row.
  rewrite (permute_fmap exp σ x Hσ).
  rewrite (Rsum_permutation (permute σ (map exp x)) (map exp x))
    by (apply permute_Permutation; by rewrite length_map).
  apply (permute_fmap (fun v => v / Rsum (map exp x))). by rewrite length_map.
Qed.

Lemma softmax_permute_cols (σ : list nat) (m : matrix R) :
  wf m -> σ ≡ₚ seq 0 (ncols m) ->
  softmax (permute_cols σ m) = permute_cols σ (softmax m).
Proof.
  intros Hwf Hσ. unfold softmax, permute_cols. simpl. f_equal.
  rewrite <- !list_fmap_compose. apply list_fmap_ext. intros t r Hr. simpl.
  apply softmax_row_permute. by rewrite (wf_lookup m t r).
Qed.

(** The weighted sum does not depend on the order of the candidates. *)
Lemma dot_permute (σ : list nat) (a b : matrix R) :
  wf a -> σ ≡ₚ seq 0 (ncols a) -> nrows b = ncols a ->
  dot (permute_cols σ a) (permute_rows σ b) = dot a b.
Proof.
  intros Hwf Hσ Hb. unfold dot.
  rewrite nrows_permute_rows, (perm_length σ _ Hσ). simpl.
  rewrite !decide_True by done. do 2 f_equal.
  rewrite <- list_fmap_compose. apply list_fmap_ext. intros i ra Hra. simpl.
  apply list_fmap_ext. intros k j _.
  rewrite (permute_fmap _ σ (rows b)) by (fold (nrows b); by rewrite Hb).
  rewrite permute_zip_with.
  - apply Rsum_permutation, permute_Permutation.
    rewrite length_zip_with, length_map.
    fold (nrows b). rewrite Hb, (wf_lookup a i ra), Nat.min_id; done.
  - by rewrite (wf_lookup a i ra).
  - by rewrite length_map, (wf_lookup a i ra).
Qed.

End PermuteScores.

(** ** The destinations of reordered candidates *)

Section PermuteDestination.

Lemma permute_candidates_lookup_candidate (σ : list nat)
    (kwargs : gmap string array) (k : string) :
  String.prefix "candidate_" k = true ->
  permute_candidates σ kwargs !! k = permute_array σ <$> kwargs !! k.
Proof.
  intros Hk. unfold permute_candidates. rewrite map_lookup_imap.
  destruct (kwargs !! k); simpl; by rewrite ?Hk.
Qed.

Lemma permute_candidates_lookup_other (σ : list nat)
    (kwargs : gmap string array) (k : string) :
  String.prefix "candidate_" k = false ->
  permute_candidates σ kwargs !! k = kwargs !! k.
Proof.
  intros Hk. unfold permute_candidates. rewrite map_lookup_imap.
  destruct (kwargs !! k); simpl; by rewrite ?Hk.
Qed.

Lemma prefix_candidate (name : string) :
  String.prefix "candidate_" (String.append "candidate_" name) = true.
Proof. simpl. by destruct name. Qed.

Lemma index2_permute (σ : list nat) (n : nat) (m : matrix R) (J : list Z) :
  σ ≡ₚ seq 0 n -> nrows m = n -> length J = n ->
  index2 (permute_rows σ m) (arange n) (permute σ J)
  = permute σ <$> index2 m (arange n) J.
Proof.
  intros Hσ Hm HJ. unfold index2.
  assert (mapM (fun ij : Z * Z =>
                  np_index (rows (permute_rows σ m)) ij.1 ≫= fun r => np_index r ij.2)
               (zip (arange n) (permute σ J))
          = mapM (fun ij : Z * Z =>
                    np_index (rows m) ij.1 ≫= fun r => np_index r ij.2)
                 (permute σ (zip (arange n) J))) as ->.
  { unfold arange. change (map Z.of_nat (seq 0 n)) with (Z.of_nat <$> seq 0 n).
    rewrite <- (permute_zip_with pair σ (Z.of_nat <$> seq 0 n) J)
      by (by rewrite ?HJ, ?length_fmap, ?length_seq).
    rewrite (permute_seq Z.of_nat σ n Hσ).
    apply mapM_ext_lookup.
    { by rewrite !length_zip_with, !length_fmap, length_seq, (perm_length σ n Hσ). }
    intros b [i j] [i' j'] Hb Hb'. simpl.
    apply lookup_zip_with_Some in Hb as (? & ? & [= <- <-] & Hi & Hj).
    apply lookup_zip_with_Some in Hb' as (? & ? & [= <- <-] & Hi' & Hj').
    assert (j' = j) as -> by congruence.
    rewrite list_lookup_fmap in Hi, Hi'.
    apply fmap_Some in Hi as (b' & [-> Hbn]%lookup_seq & ->).
    apply fmap_Some in Hi' as (k & Hk & ->). simpl.
    rewrite !np_index_nat. f_equal.
    apply permute_lookup; [|done]. unfold nrows in Hm. by rewrite Hm. }
  rewrite mapM_permute
    by (by rewrite length_zip_with, arange_length, HJ, Nat.min_id).
  done.
Qed.

Lemma index2_length (m : matrix R) (I J : list Z) (v : list R) :
  length I = length J -> index2 m I J = Some v -> length v = length I.
Proof.
  intros Hlen Hv. unfold index2 in Hv.
  apply mapM_Some, Forall2_length in Hv. rewrite <- Hv, length_zip_with. lia.
Qed.

Lemma column_permute (σ : list nat) (v : list R) :
  σ ≡ₚ seq 0 (length v) -> column (permute σ v) = permute_rows σ (column v).
Proof.
  intros Hσ. unfold column, permute_rows. simpl. f_equal.
  by apply (permute_fmap (fun x : R => [x])).
Qed.

Lemma candidate_last_permute (σ : list nat) (mask : matrix Z) :
  σ ≡ₚ seq 0 (nrows mask) ->
  Model.candidate_last (permute_rows σ mask) = permute σ (Model.candidate_last mask).
Proof.
  intros Hσ. unfold Model.candidate_last, sum_axis1, permute_rows. simpl.
  rewrite (permute_fmap Zsum σ (rows mask) Hσ).
  apply (permute_fmap (fun s => cast_int64 (s - 1))). by rewrite length_map.
Qed.

Lemma candidate_destination_permute (σ : list nat) (n : nat)
    (kwargs : gmap string array) :
  σ ≡ₚ seq 0 n ->
  (forall k v, kwargs !! k = Some v -> String.prefix "candidate_" k = true ->
     batch_size v = n) ->
  Model.candidate_destination (permute_candidates σ kwargs)
  = permute_rows σ <$> Model.candidate_destination kwargs
  /\ forall d, Model.candidate_destination kwargs = Some d -> nrows d = n.
Proof.
  intros Hσ Hsize. unfold Model.candidate_destination.
  rewrite !permute_candidates_lookup_candidate by done.
  rewrite !as_floats_permute, as_ints_permute.
  destruct (kwargs !! "candidate_latitude_mask" ≫= as_ints) as [mask|] eqn:Hmask;
    [|done].
  apply as_ints_batch_size with (n := n) in Hmask;
    [|intros v Hv; by apply (Hsize _ _ Hv)].
  simpl_option.
  destruct (kwargs !! "candidate_latitude" ≫= as_floats) as [lat|] eqn:Hlat; [|done].
  apply as_floats_batch_size with (n := n) in Hlat;
    [|intros v Hv; by apply (Hsize _ _ Hv)].
  simpl_option.
  rewrite nrows_permute_rows, (perm_length σ n Hσ), Hmask.
  rewrite candidate_last_permute by (by rewrite Hmask).
  assert (length (Model.candidate_last mask) = n) as Hlast.
  { unfold Model.candidate_last, sum_axis1. by rewrite !length_map. }
  rewrite !(index2_permute σ n) by done.
  destruct (index2 lat _ _) as [la|] eqn:Hla; [|done].
  apply index2_length in Hla; [|by rewrite arange_length]. rewrite arange_length in Hla.
  simpl_option.
  destruct (kwargs !! "candidate_longitude" ≫= as_floats) as [lon|] eqn:Hlon; [|done].
  apply as_floats_batch_size with (n := n) in Hlon;
    [|intros v Hv; by apply (Hsize _ _ Hv)].
  simpl_option.
  rewrite !(index2_permute σ n) by done.
  destruct (index2 lon _ _) as [lo|] eqn:Hlo; [|done].
  apply index2_length in Hlo; [|by rewrite arange_length]. rewrite arange_length in Hlo.
  simpl_option.
  rewrite !column_permute by congruence.
  apply hconcat_permute; [done | |]; unfold nrows, column; simpl;
    by rewrite length_map.
Qed.

End PermuteDestination.

(** ** The prediction does not depend on the order of the candidates *)

Section PermutePredict.
Context (train_gps_mean train_gps_std : R * R).

Lemma prefix_representation_permute_candidates (c : Model.config) (σ : list nat)
    (kwargs : gmap string array) :
  Forall (fun name => String.prefix "candidate_" name = false)
         (ce_inputs (RecurrentEncoder.embedder (Model.prefix_encoder_config c))) ->
  Model.prefix_representation train_gps_mean train_gps_std (Model.init c)
    (permute_candidates σ kwargs)
  = Model.prefix_representation train_gps_mean train_gps_std (Model.init c) kwargs.
Proof.
  intros Hnames. unfold Model.prefix_representation, select. f_equal.
  apply select_into_ext. intros name Hname.
  apply permute_candidates_lookup_other. simpl in Hname.
  apply elem_of_app in Hname as [Hname|Hname].
  - rewrite Forall_forall in Hnames. by apply Hnames.
  - repeat (apply elem_of_cons in Hname as [->|Hname]; [done|]).
    by apply elem_of_nil in Hname.
Qed.

Lemma encoded_candidates_permute (c : Model.config) (σ : list nat) (n : nat)
    (kwargs : gmap string array) :
  let pe := Model.prefix_encoder_config c in
  σ ≡ₚ seq 0 n ->
  (forall k v, kwargs !! k = Some v -> String.prefix "candidate_" k = true ->
     batch_size v = n) ->
  batchwise_rec (RecurrentEncoder.rec_brick pe) ->
  batchwise_embedder (RecurrentEncoder.embedder pe) ->
  batchwise_mlp (RecurrentEncoder.mlp_brick pe) ->
  Model.encoded_candidates train_gps_mean train_gps_std (Model.init c)
    (permute_candidates σ kwargs)
  = permute_rows σ
      <$> Model.encoded_candidates train_gps_mean train_gps_std (Model.init c) kwargs
  /\ forall e,
       Model.encoded_candidates train_gps_mean train_gps_std (Model.init c) kwargs
         = Some e -> nrows e = n.
Proof.
  intros pe Hσ Hsize Hrec Hemb Hmlp. unfold Model.encoded_candidates.
  set (names := RecurrentEncoder.inputs (Model.candidate_encoder (Model.init c))).
  assert (select (String.append "candidate_") names (permute_candidates σ kwargs)
          = (fun d : gmap string array => permute_array σ <$> d)
              <$> select (String.append "candidate_") names kwargs) as ->.
  { rewrite <- select_fmap. unfold select. apply select_into_ext.
    intros name _. rewrite lookup_fmap.
    apply permute_candidates_lookup_candidate, prefix_candidate. }
  destruct (select _ names kwargs) as [d|] eqn:Hd; [|done].
  simpl_option.
  apply apply_permute; try done.
  eapply (select_values (fun v => batch_size v = n)); [|exact Hd].
  intros name v Hv. apply (Hsize _ _ Hv), prefix_candidate.
Qed.

(** C9: reordering the candidates leaves the prediction unchanged.  The
    examples of every array under a [candidate_] key are reordered by the
    same permutation [σ] of the [n] candidates.  The prefix encoder reads
    no key that starts with [candidate_], and its bricks are batchwise. *)
Theorem predict_invariant_under_candidate_order (c : Model.config)
    (σ : list nat) (n : nat) (kwargs : gmap string array) :
  let pe := Model.prefix_encoder_config c in
  σ ≡ₚ seq 0 n ->
  (forall k v, kwargs !! k = Some v -> String.prefix "candidate_" k = true ->
     batch_size v = n) ->
  Forall (fun name => String.prefix "candidate_" name = false)
         (ce_inputs (RecurrentEncoder.embedder pe)) ->
  batchwise_rec (RecurrentEncoder.rec_brick pe) ->
  batchwise_embedder (RecurrentEncoder.embedder pe) ->
  batchwise_mlp (RecurrentEncoder.mlp_brick pe) ->
  Model.predict train_gps_mean train_gps_std (Model.init c)
    (permute_candidates σ kwargs)
  = Model.predict train_gps_mean train_gps_std (Model.init c) kwargs.
Proof.
  intros pe Hσ Hsize Hnames Hrec Hemb Hmlp.
  destruct (encoded_candidates_permute c σ n kwargs Hσ Hsize Hrec Hemb Hmlp)
    as [He1 He2].
  destruct (candidate_destination_permute σ n kwargs Hσ Hsize) as [Hd1 Hd2].
  unfold Model.predict, Model.similarity, Model.similarity_score,
    Model.candidate_representation.
  rewrite prefix_representation_permute_candidates by done.
  rewrite He1, Hd1.
  destruct (Model.prefix_representation _ _ _ kwargs) as [p|]; [|done].
  destruct (Model.encoded_candidates _ _ _ kwargs) as [e|]; [|done].
  specialize (He2 e eq_refl).
  simpl_option.
  set (cr := if Model.normalize_representation (Model.cfg (Model.init c))
             then normalize_rows e else e).
  assert ((if Model.normalize_representation (Model.cfg (Model.init c))
           then normalize_rows (permute_rows σ e) else permute_rows σ e)
          = permute_rows σ cr) as ->.
  { subst cr. destruct (Model.normalize_representation _); [|done].
    apply normalize_rows_permute. by rewrite He2. }
  assert (nrows cr = n) as Hcr.
  { subst cr. destruct (Model.normalize_representation _); [|done].
    by rewrite nrows_normalize_rows. }
  rewrite transpose_permute_rows by (by rewrite Hcr).
  rewrite dot_permute_cols by (by rewrite nrows_transpose, Hcr).
  destruct (dot p (transpose cr)) as [s|] eqn:Hs; [|done].
  simpl_option.
  assert (wf s) as Hwf by (by eapply dot_wf).
  assert (ncols s = n) as Hn.
  { apply dot_Some in Hs as [_ ->]. simpl. done. }
  rewrite softmax_permute_cols by (done || by rewrite Hn).
  destruct (Model.candidate_destination kwargs) as [d|]; [|done].
  specialize (Hd2 d eq_refl).
  simpl_option.
  apply dot_permute.
  - by apply softmax_wf.
  - simpl. by rewrite Hn.
  - simpl. congruence.
Qed.

End PermutePredict.

(** ** The keys that [predict] reads *)

Section Keys.
Context (train_gps_mean train_gps_std : R * R).

Lemma select_into_None (key : string -> string) (names : list string)
    (kwargs d : gmap string array) (name : string) :
  name ∈ names -> kwargs !! key name = None ->
  select_into key names kwargs d = None.
Proof.
  revert d. induction names as [|n names IH]; intros d Hin Hnone;
    [by apply elem_of_nil in Hin|].
  simpl. apply elem_of_cons in Hin as [<-|Hin].
  - by rewrite Hnone.
  - destruct (kwargs !! key n); simpl; [by apply IH | done].
Qed.

(** The keys of the selected dict are among the names (and the keys it
    started from). *)
Lemma select_into_dom (key : string -> string) (names : list string)
    (kwargs d d' : gmap string array) (k : string) :
  select_into key names kwargs d = Some d' ->
  is_Some (d' !! k) -> k ∈ names \/ is_Some (d !! k).
Proof.
  revert d. induction names as [|n names IH]; intros d; simpl.
  - intros [= <-]. by right.
  - intros (v & _ & Hsel)%bind_Some Hk.
    destruct (IH _ Hsel Hk) as [Hin|Hd]; [left; by right|].
    destruct (decide (n = k)) as [->|Hne]; [left; by left|].
    right. by rewrite lookup_insert_ne in Hd.
Qed.

Lemma prefix_representation_ext (self : Model.t) (kw1 kw2 : gmap string array) :
  (forall name, name ∈ RecurrentEncoder.inputs (Model.prefix_encoder self) ->
     kw1 !! name = kw2 !! name) ->
  Model.prefix_representation train_gps_mean train_gps_std self kw1
  = Model.prefix_representation train_gps_mean train_gps_std self kw2.
Proof.
  intros Hext. unfold Model.prefix_representation, select. f_equal.
  by apply select_into_ext.
Qed.

Lemma encoded_candidates_ext (self : Model.t) (kw1 kw2 : gmap string array) :
  (forall name, name ∈ RecurrentEncoder.inputs (Model.candidate_encoder self) ->
     kw1 !! String.append "candidate_" name = kw2 !! String.append "candidate_" name) ->
  Model.encoded_candidates train_gps_mean train_gps_std self kw1
  = Model.encoded_candidates train_gps_mean train_gps_std self kw2.
Proof.
  intros Hext. unfold Model.encoded_candidates, select. f_equal.
  by apply select_into_ext.
Qed.

Lemma predict_missing_input (c : Model.config)
    (kwargs : gmap string array) (name : string) :
  name ∈ Model.predict_inputs (Model.init c) ->
  kwargs !! name = None ->
  Model.predict train_gps_mean train_gps_std (Model.init c) kwargs = None.
Proof.
  intros Hin Hnone.
  unfold Model.predict, Model.similarity, Model.similarity_score,
    Model.candidate_representation.
  unfold Model.predict_inputs in Hin. simpl in Hin.
  apply elem_of_app in Hin as [Hin|Hin].
  - unfold Model.prefix_representation, select.
    by rewrite (select_into_None (fun n => n) _ kwargs ∅ name Hin Hnone).
  - apply list_elem_of_fmap in Hin as (n & -> & Hn).
    destruct (Model.prefix_representation _ _ _ kwargs); [|done]. simpl.
    unfold Model.encoded_candidates, select.
    by rewrite (select_into_None (String.append "candidate_") _ kwargs ∅ n Hn Hnone).
Qed.

Lemma predict_ext (c : Model.config) (kw1 kw2 : gmap string array) :
  (forall name, name ∈ Model.predict_inputs (Model.init c) ->
     kw1 !! name = kw2 !! name) ->
  Model.predict train_gps_mean train_gps_std (Model.init c) kw1
  = Model.predict train_gps_mean train_gps_std (Model.init c) kw2.
Proof.
  intros Hext.
  assert (forall name,
            name ∈ RecurrentEncoder.inputs (Model.candidate_encoder (Model.init c)) ->
            kw1 !! String.append "candidate_" name
            = kw2 !! String.append "candidate_" name) as Hcand.
  { intros name Hname. apply Hext. unfold Model.predict_inputs. simpl.
    apply elem_of_app. right. apply list_elem_of_fmap. by exists name. }
  unfold Model.predict, Model.similarity, Model.similarity_score,
    Model.candidate_representation.
  rewrite (prefix_representation_ext _ kw1 kw2), (encoded_candidates_ext _ kw1 kw2);
    [|done|].
  - unfold Model.candidate_destination.
    assert (kw1 !! "candidate_latitude_mask" = kw2 !! "candidate_latitude_mask") as ->
      by (apply (Hcand "latitude_mask"); simpl; set_solver).
    assert (kw1 !! "candidate_latitude" = kw2 !! "candidate_latitude") as ->
      by (apply (Hcand "latitude"); simpl; set_solver).
    assert (kw1 !! "candidate_longitude" = kw2 !! "candidate_longitude") as ->
      by (apply (Hcand "longitude"); simpl; set_solver).
    done.
  - intros name Hname. apply Hext. unfold Model.predict_inputs. simpl.
    apply elem_of_app. by left.
Qed.

(** X7: Every name that [predict] declares is needed: without it [predict]
    raises. *)
Theorem predict_requires_declared_inputs (c : Model.config)
    (kwargs : gmap string array) (name : string) :
  name ∈ Model.predict_inputs (Model.init c) ->
  kwargs !! name = None ->
  Model.predict train_gps_mean train_gps_std (Model.init c) kwargs = None.
Proof. apply predict_missing_input. Qed.

(** X8: [predict] reads the batch under its declared names only: two batches
    that agree there give the same result. *)
Theorem predict_reads_declared_inputs_only (c : Model.config)
    (kw1 kw2 : gmap string array) :
  (forall name, name ∈ Model.predict_inputs (Model.init c) ->
     kw1 !! name = kw2 !! name) ->
  Model.predict train_gps_mean train_gps_std (Model.init c) kw1
  = Model.predict train_gps_mean train_gps_std (Model.init c) kw2.
Proof. apply predict_ext. Qed.

(** X9: The candidates are encoded by the prefix encoder on the dict built
    from the input names of the candidate encoder: a metadata name that
    only the prefix encoder knows is never in that dict, and [predict]
    raises on every batch. *)
Theorem predict_raises_on_unshared_metadata (c : Model.config)
    (kwargs : gmap string array) (name : string) :
  name ∈ ce_inputs (RecurrentEncoder.embedder (Model.prefix_encoder_config c)) ->
  name ∉ ce_inputs (RecurrentEncoder.embedder (Model.candidate_encoder_config c)) ->
  Model.predict train_gps_mean train_gps_std (Model.init c) kwargs = None.
Proof.
  intros Hin Hnotin.
  assert (Model.encoded_candidates train_gps_mean train_gps_std (Model.init c) kwargs
          = None) as Hnone.
  { unfold Model.encoded_candidates.
    destruct (select _ _ kwargs) as [d|] eqn:Hd; [|done]. simpl.
    unfold RecurrentEncoder.apply.
    repeat (match goal with
            | |- context [?o ≫= _] =>
                lazymatch o with
                | select _ _ _ => fail
                | _ => destruct o; simpl; [|done]
                end
            end).
    match goal with |- context [select ?k ?ns ?kw] =>
      assert (select k ns kw = None) as -> end; [|done].
    unfold select. apply select_into_None with (name := name); [done|].
    destruct (decide (name = "latitude")) as [->|H1]; [by rewrite lookup_delete_eq|].
    rewrite lookup_delete_ne by done.
    destruct (decide (name = "longitude")) as [->|H2]; [by rewrite lookup_delete_eq|].
    rewrite lookup_delete_ne by done.
    destruct (decide (name = "latitude_mask")) as [->|H3];
      [by rewrite lookup_delete_eq|].
    rewrite lookup_delete_ne by done.
    apply eq_None_not_Some. intros Hsome.
    destruct (select_into_dom _ _ _ _ _ name Hd Hsome) as [Hn|Hn].
    - simpl in Hn. apply elem_of_app in Hn as [Hn|Hn]; [done|].
      repeat (apply elem_of_cons in Hn as [->|Hn]; [done|]).
      by apply elem_of_nil in Hn.
    - rewrite lookup_empty in Hn. by destruct Hn. }
  unfold Model.predict, Model.similarity, Model.similarity_score,
    Model.candidate_representation.
  rewrite Hnone. by destruct (Model.prefix_representation _ _ _ kwargs).
Qed.

End Keys.

(** ** Shapes and weights of the attention *)

Section Attention.
Context (train_gps_mean train_gps_std : R * R).
Local Open Scope R_scope.

Lemma Rsum_nonneg (l : list R) : (forall x, x ∈ l -> 0 <= x) -> 0 <= Rsum l.
Proof.
  induction l as [|a l IH]; intros Hl; simpl; [lra|].
  assert (0 <= a) by (apply Hl; left).
  assert (0 <= Rsum l) by (apply IH; intros x Hx; apply Hl; by right). lra.
Qed.

Lemma Rsum_ge_elem (l : list R) (x : R) :
  (forall y, y ∈ l -> 0 <= y) -> x ∈ l -> x <= Rsum l.
Proof.
  induction l as [|a l IH]; intros Hl Hx; [by apply elem_of_nil in Hx|].
  simpl. assert (0 <= a) by (apply Hl; left).
  assert (0 <= Rsum l) by (apply Rsum_nonneg; intros y Hy; apply Hl; by right).
  apply elem_of_cons in Hx as [->|Hx]; [lra|].
  assert (x <= Rsum l) by (apply IH; [intros y Hy; apply Hl; by right | done]). lra.
Qed.

Lemma softmax_row_bounds (x : list R) (w : R) : w ∈ softmax_row x -> 0 < w <= 1.
Proof.
  unfold softmax_row. intros (e & -> & He)%list_elem_of_fmap.
  assert (x <> []) as Hx.
  { intros ->. by apply elem_of_nil in He. }
  pose proof (Rsum_exp_pos x Hx) as Hpos.
  assert (0 < e) as Hepos.
  { apply list_elem_of_fmap in He as (v & -> & _). apply exp_pos. }
  assert (e <= Rsum (map exp x)) as Hle.
  { apply Rsum_ge_elem; [|done].
    intros y (v & -> & _)%list_elem_of_fmap. apply Rlt_le, exp_pos. }
  split.
  - by apply Rdiv_lt_0_compat.
  - apply Rmult_le_reg_r with (Rsum (map exp x)); [done|].
    unfold Rdiv. rewrite Rmult_assoc, Rinv_l by lra. lra.
Qed.

(** X10: When the normalisation, if it is configured, divides by no zero
    norm, every attention weight lies between 0 and 1.  (Over the reals a
    weight is never 0; rounded, the weight of a candidate whose score is
    far below the largest one can be 0, which the bound allows.) *)
Theorem attention_weights_in_unit_interval (self : Model.t)
    (kwargs : gmap string array) (a : matrix R) (row : list R) (w : R) :
  Model.similarity train_gps_mean train_gps_std self kwargs = Some a ->
  normalization_defined train_gps_mean train_gps_std self kwargs ->
  row ∈ rows a -> w ∈ row -> 0 <= w <= 1.
Proof.
  intros (s & _ & _ & ->)%similarity_Some _ Hrow Hw. simpl in Hrow.
  apply list_elem_of_fmap in Hrow as (r & -> & _).
  pose proof (softmax_row_bounds r w Hw). lra.
Qed.

Lemma nrows_transpose' {A} `{Inhabited A} (m : matrix A) :
  nrows (transpose m) = ncols m.
Proof. unfold nrows, transpose. simpl. by rewrite length_map, length_seq. Qed.

(** X11: The scores exist exactly when the prefix and the candidate
    representations have the same width; otherwise the product raises. *)
Theorem similarity_score_defined_iff (self : Model.t) (kwargs : gmap string array)
    (p c : matrix R) :
  Model.prefix_representation train_gps_mean train_gps_std self kwargs = Some p ->
  Model.candidate_representation train_gps_mean train_gps_std self kwargs = Some c ->
  is_Some (Model.similarity_score train_gps_mean train_gps_std self kwargs)
  <-> ncols p = ncols c.
Proof.
  intros Hp Hc. unfold Model.similarity_score. rewrite Hp, Hc. simpl.
  unfold dot. rewrite nrows_transpose'.
  case_decide; split; [done | done | by intros [? ?] | done].
Qed.

(** X12: When all candidates have the same destination and the
    normalisation, if it is configured, divides by no zero norm, the
    prediction is that destination for every prefix; in particular with a
    single candidate. *)
Theorem prediction_of_identical_destinations (self : Model.t)
    (kwargs : gmap string array) (out d : matrix R) (lat lon : R) (row : list R) :
  Model.predict train_gps_mean train_gps_std self kwargs = Some out ->
  Model.candidate_destination kwargs = Some d ->
  rows d <> [] ->
  normalization_defined train_gps_mean train_gps_std self kwargs ->
  (forall r, r ∈ rows d -> r = [lat; lon]) ->
  row ∈ rows out ->
  row = [lat; lon].
Proof.
  intros (a & d' & Ha & Hd' & Hdot)%predict_Some Hd Hne _ Hrows Hrow.
  assert (d' = d) as -> by congruence.
  pose proof (candidate_destination_ncols _ _ Hd) as Hd2.
  apply similarity_Some in Ha as (s & _ & Hwf & ->).
  apply dot_Some in Hdot as [Hshape ->]. simpl in *.
  apply list_elem_of_fmap in Hrow as (w & -> & Hw).
  apply list_elem_of_fmap in Hw as (r & -> & Hr).
  assert (length r = nrows d) as Hlen.
  { rewrite <- Hshape. unfold wf in Hwf. rewrite Forall_forall in Hwf.
    by apply Hwf. }
  assert (r <> []) as Hrne.
  { intros ->. unfold nrows in Hlen. destruct (rows d); done. }
  assert (forall j v, (forall y, y ∈ col j d -> y = v) ->
            Rsum (zip_with Rmult (softmax_row r) (col j d)) = v) as Hcomb.
  { intros j v Hv.
    destruct (convex_combination_bounds (softmax_row r) (col j d) v v) as [H1 H2].
    - by rewrite softmax_row_length, col_length.
    - apply softmax_row_nonneg.
    - intros y Hy. rewrite (Hv y Hy). lra.
    - rewrite softmax_row_sum in H1, H2 by done. lra. }
  rewrite Hd2. simpl. f_equal; [|f_equal].
  - apply Hcomb. intros y (r0 & -> & Hr0)%list_elem_of_fmap.
    by rewrite (Hrows r0 Hr0).
  - apply Hcomb. intros y (r0 & -> & Hr0)%list_elem_of_fmap.
    by rewrite (Hrows r0 Hr0).
Qed.

(** X13: Without any candidate nothing raises: the prediction is (0, 0) for
    every prefix. *)
Theorem prediction_without_candidates (self : Model.t)
    (kwargs : gmap string array) (out d : matrix R) (row : list R) :
  Model.predict train_gps_mean train_gps_std self kwargs = Some out ->
  Model.candidate_destination kwargs = Some d ->
  rows d = [] ->
  row ∈ rows out ->
  row = [0; 0].
Proof.
  intros (a & d' & Ha & Hd' & Hdot)%predict_Some Hd Hnil Hrow.
  assert (d' = d) as -> by congruence.
  pose proof (candidate_destination_ncols _ _ Hd) as Hd2.
  apply dot_Some in Hdot as [_ ->]. simpl in Hrow.
  apply list_elem_of_fmap in Hrow as (w & -> & _).
  rewrite Hd2. unfold col. rewrite Hnil. simpl.
  by rewrite zip_with_nil_r.
Qed.

End Attention.

(** ** The destination of a candidate *)

Section Destination.
Local Open Scope Z_scope.

(** Indexing row [b] at column [J[b]] for every [b]: the result, when no
    index is out of range. *)
Lemma index2_arange (m : matrix R) (J : list Z) (n : nat) :
  nrows m = n -> length J = n ->
  (forall b r j, rows m !! b = Some r -> J !! b = Some j -> is_Some (np_index r j)) ->
  exists v, index2 m (arange n) J = Some v /\ length v = n
    /\ forall b r j, rows m !! b = Some r -> J !! b = Some j -> v !! b = np_index r j.
Proof.
  intros Hm HJ Hin. unfold index2.
  assert (forall b ij, zip (arange n) J !! b = Some ij ->
            ij.1 = Z.of_nat b /\ J !! b = Some ij.2 /\ (b < n)%nat) as Hzip.
  { intros b [i j] Hb.
    apply lookup_zip_with_Some in Hb as (? & ? & [= <- <-] & Hi & Hj).
    unfold arange in Hi. rewrite list_lookup_fmap in Hi.
    apply fmap_Some in Hi as (b' & [-> Hb']%lookup_seq & ->). done. }
  destruct (mapM (fun ij : Z * Z => np_index (rows m) ij.1 ≫= fun r => np_index r ij.2)
              (zip (arange n) J)) as [v|] eqn:Hv.
  - exists v. split; [done|]. apply mapM_Some in Hv.
    pose proof (Forall2_length _ _ _ Hv) as Hlen.
    rewrite length_zip_with, arange_length, HJ, Nat.min_id in Hlen.
    split; [done|]. intros b r j Hr Hj.
    assert (zip (arange n) J !! b = Some (Z.of_nat b, j)) as Hb.
    { rewrite lookup_zip_with, arange_lookup, Hj; [done|].
      apply lookup_lt_Some in Hj. lia. }
    destruct (Forall2_lookup_l _ _ _ _ _ Hv Hb) as (y & -> & Hy). simpl in Hy.
    by rewrite np_index_nat, Hr in Hy.
  - exfalso. apply mapM_None, Exists_exists in Hv as (ij & Hij & Hnone).
    apply list_elem_of_lookup in Hij as (b & Hb).
    destruct (Hzip b ij Hb) as (Hi & Hj & Hbn).
    rewrite Hi, np_index_nat in Hnone.
    destruct (rows m !! b) as [r|] eqn:Hr.
    + simpl in Hnone. destruct (Hin b r ij.2 Hr Hj) as [x Hx]. congruence.
    + apply lookup_ge_None in Hr. unfold nrows in Hm. lia.
Qed.

Lemma column_lookup (v : list R) (b : nat) :
  rows (column v) !! b = (fun x => [x]) <$> v !! b.
Proof. unfold column. simpl. by rewrite list_lookup_fmap. Qed.

(** On rectangular arrays of the same shape with at least one time step,
    extracting the destinations raises nothing, and the destination of
    candidate [b] is read at the index "number of valid positions minus
    1", as numpy reads it. *)
Lemma candidate_destination_rows (kwargs : gmap string array)
    (mask : matrix Z) (lat lon : matrix R) :
  kwargs !! "candidate_latitude_mask" = Some (Ints mask) ->
  kwargs !! "candidate_latitude" = Some (Floats lat) ->
  kwargs !! "candidate_longitude" = Some (Floats lon) ->
  wf mask -> binary mask -> Z.of_nat (ncols mask) < 2 ^ 63 ->
  wf lat -> wf lon ->
  ncols lat = ncols mask -> ncols lon = ncols mask ->
  nrows lat = nrows mask -> nrows lon = nrows mask ->
  (0 < ncols mask)%nat ->
  exists d, Model.candidate_destination kwargs = Some d
    /\ nrows d = nrows mask
    /\ forall b r la lo,
         rows mask !! b = Some r -> rows lat !! b = Some la -> rows lon !! b = Some lo ->
         exists x y, np_index la (Zsum r - 1) = Some x
           /\ np_index lo (Zsum r - 1) = Some y
           /\ rows d !! b = Some [x; y].
Proof.
  intros Hkm Hkla Hklo Hwf Hbin HT Hwla Hwlo Hcla Hclo Hrla Hrlo Hpos.
  assert (length (Model.candidate_last mask) = nrows mask) as Hlast.
  { unfold Model.candidate_last, sum_axis1. by rewrite !length_map. }
  assert (forall (a : matrix R), wf a -> ncols a = ncols mask ->
            forall b r j, rows a !! b = Some r ->
              Model.candidate_last mask !! b = Some j ->
              is_Some (np_index r j)
              /\ exists rm, rows mask !! b = Some rm /\ j = Zsum rm - 1) as Hrange.
  { intros a Hwa Hca b r j Hr Hj.
    destruct (rows mask !! b) as [rm|] eqn:Hrm.
    - rewrite (candidate_last_lookup _ _ _ Hrm) in Hj. injection Hj as <-.
      assert (length rm = ncols mask) as Hlen by wf_length Hwf.
      assert (0 <= Zsum rm <= Z.of_nat (ncols mask)) as Hsum.
      { rewrite <- Hlen. apply Zsum_binary.
        unfold binary in Hbin. rewrite Forall_forall in Hbin.
        apply Hbin. by eapply list_elem_of_lookup_2. }
      rewrite cast_int64_small by lia.
      split; [|by exists rm].
      assert (length r = ncols mask) as Hlr by (rewrite <- Hca; wf_length Hwa).
      unfold np_index. rewrite Hlr.
      destruct (decide (0 <= Zsum rm - 1 < Z.of_nat (ncols mask))).
      + apply lookup_lt_is_Some. lia.
      + rewrite decide_True by lia. apply lookup_lt_is_Some. lia.
    - apply lookup_lt_Some in Hj. apply lookup_ge_None in Hrm.
      unfold nrows in Hlast. lia. }
  destruct (index2_arange lat (Model.candidate_last mask) (nrows mask) Hrla Hlast)
    as (vla & Hvla & Hlla & Hla).
  { intros b r j Hr Hj. by apply (Hrange lat Hwla Hcla b r j). }
  destruct (index2_arange lon (Model.candidate_last mask) (nrows mask) Hrlo Hlast)
    as (vlo & Hvlo & Hllo & Hlo).
  { intros b r j Hr Hj. by apply (Hrange lon Hwlo Hclo b r j). }
  unfold Model.candidate_destination. rewrite Hkm, Hkla, Hklo. simpl.
  rewrite Hvla. simpl. rewrite Hvlo. simpl.
  unfold hconcat. rewrite decide_True
    by (unfold nrows, column; simpl; rewrite !length_map; congruence).
  eexists. split; [done|]. split.
  { unfold nrows in *. simpl. rewrite length_zip_with, !length_map. lia. }
  intros b r la lo Hr Hrla' Hrlo'. simpl.
  pose proof (candidate_last_lookup _ _ _ Hr) as Hj.
  destruct (Hrange lat Hwla Hcla b la _ Hrla' Hj) as [[x Hx] (rm & Hrm & Hjeq)].
  destruct (Hrange lon Hwlo Hclo b lo _ Hrlo' Hj) as [[y Hy] _].
  assert (rm = r) as -> by congruence.
  exists x, y. rewrite <- Hjeq. split; [done|]. split; [done|].
  rewrite lookup_zip_with, !list_lookup_fmap.
  rewrite (Hla b la _ Hrla' Hj), (Hlo b lo _ Hrlo' Hj), Hx, Hy. done.
Qed.

End Destination.

Section DestinationCases.
Local Open Scope Z_scope.

Lemma Zsum_ones_then_zeros (n k : nat) :
  Zsum (replicate n 1 ++ replicate k 0) = Z.of_nat n.
Proof.
  induction n as [|n IH].
  - simpl. induction k as [|k IHk]; simpl; [done | lia].
  - change (1 + Zsum (replicate n 1 ++ replicate k 0) = Z.of_nat (S n)). lia.
Qed.

(** X2: On rectangular arrays of the same shape with a binary mask, the
    destination of a candidate whose mask row sums to [s >= 1] is its point
    at the index [s - 1]; the arrays then have a time step, and the
    extraction raises nothing.  When the valid positions of the row come
    first ([n] ones, then zeros) that index is [n - 1], the last valid
    position: the mask is 1 there and at no later position. *)
Theorem candidate_destination_last_valid_point (kwargs : gmap string array)
    (mask : matrix Z) (lat lon : matrix R) (b : nat) (r : list Z) (la lo : list R) :
  candidate_arrays kwargs mask lat lon ->
  rows mask !! b = Some r -> rows lat !! b = Some la -> rows lon !! b = Some lo ->
  1 <= Zsum r ->
  exists d x y, Model.candidate_destination kwargs = Some d
    /\ la !! Z.to_nat (Zsum r - 1) = Some x
    /\ lo !! Z.to_nat (Zsum r - 1) = Some y
    /\ rows d !! b = Some [x; y]
    /\ forall n k, r = replicate n 1 ++ replicate k 0 ->
         Z.to_nat (Zsum r - 1) = (n - 1)%nat
         /\ r !! (n - 1)%nat = Some 1
         /\ forall t, (n <= t)%nat -> r !! t <> Some 1.
Proof.
  intros (Hkm & Hkla & Hklo & Hwf & Hbin & HT & Hwla & Hwlo & Hcla & Hclo & Hrla & Hrlo)
    Hr Hla Hlo Hsum.
  assert (length r = ncols mask) as Hlen by wf_length Hwf.
  assert (0 <= Zsum r <= Z.of_nat (ncols mask)) as Hs.
  { rewrite <- Hlen. apply Zsum_binary.
    unfold binary in Hbin. rewrite Forall_forall in Hbin.
    apply Hbin. by eapply list_elem_of_lookup_2. }
  destruct (candidate_destination_rows kwargs mask lat lon) as (d & Hd & _ & Hrows);
    try done; [lia|].
  destruct (Hrows b r la lo Hr Hla Hlo) as (x & y & Hx & Hy & Hrow).
  exists d, x, y. split; [done|].
  assert (length la = ncols mask) as Hlla by (rewrite <- Hcla; wf_length Hwla).
  assert (length lo = ncols mask) as Hllo by (rewrite <- Hclo; wf_length Hwlo).
  unfold np_index in Hx, Hy. rewrite Hlla in Hx. rewrite Hllo in Hy.
  rewrite decide_True in Hx, Hy by lia.
  split_and!; [done | done | done |].
  intros n k ->. rewrite Zsum_ones_then_zeros in *.
  split_and!.
  - lia.
  - rewrite lookup_app_l by (rewrite length_replicate; lia).
    apply lookup_replicate_2. lia.
  - intros t Ht. rewrite lookup_app_r by (rewrite length_replicate; lia).
    intros [? _]%lookup_replicate. done.
Qed.

(** X3: A candidate without any valid position raises nothing when there is
    at least one time step: the index -1 is read from the end, and its
    destination is its point at the last, padded, time step. *)
Theorem candidate_destination_of_padding_row (kwargs : gmap string array)
    (mask : matrix Z) (lat lon : matrix R) (b : nat) (r : list Z) (la lo : list R) :
  candidate_arrays kwargs mask lat lon ->
  (0 < ncols mask)%nat ->
  rows mask !! b = Some r -> rows lat !! b = Some la -> rows lon !! b = Some lo ->
  Zsum r = 0 ->
  exists d x y, Model.candidate_destination kwargs = Some d
    /\ last la = Some x /\ last lo = Some y
    /\ rows d !! b = Some [x; y].
Proof.
  intros (Hkm & Hkla & Hklo & Hwf & Hbin & HT & Hwla & Hwlo & Hcla & Hclo & Hrla & Hrlo)
    Hpos Hr Hla Hlo Hsum.
  destruct (candidate_destination_rows kwargs mask lat lon) as (d & Hd & _ & Hrows);
    try done.
  destruct (Hrows b r la lo Hr Hla Hlo) as (x & y & Hx & Hy & Hrow).
  exists d, x, y. split; [done|].
  assert (length la = ncols mask) as Hlla by (rewrite <- Hcla; wf_length Hwla).
  assert (length lo = ncols mask) as Hllo by (rewrite <- Hclo; wf_length Hwlo).
  rewrite !last_lookup, Hlla, Hllo.
  unfold np_index in Hx, Hy. rewrite Hsum, Hlla in Hx. rewrite Hsum, Hllo in Hy.
  rewrite decide_False in Hx, Hy by lia. rewrite decide_True in Hx, Hy by lia.
  replace (Z.to_nat (0 - 1 + Z.of_nat (ncols mask))) with (pred (ncols mask))
    in Hx, Hy by lia.
  done.
Qed.

(** X4: With no time step at all, the first candidate already makes the index
    extraction raise. *)
Theorem candidate_destination_without_time_steps (kwargs : gmap string array)
    (mask : matrix Z) (lat : matrix R) :
  kwargs !! "candidate_latitude_mask" = Some (Ints mask) ->
  kwargs !! "candidate_latitude" = Some (Floats lat) ->
  wf lat -> ncols lat = 0%nat ->
  rows mask <> [] -> rows lat <> [] ->
  Model.candidate_destination kwargs = None.
Proof.
  intros Hkm Hkla Hwla Hcla Hmask Hlat.
  unfold Model.candidate_destination. rewrite Hkm, Hkla. simpl.
  assert (index2 lat (arange (nrows mask)) (Model.candidate_last mask) = None) as ->;
    [|done].
  unfold index2. apply mapM_None, Exists_exists.
  destruct (rows mask) as [|rm rms] eqn:Hrm; [done|].
  destruct (rows lat) as [|la las] eqn:Hla; [done|].
  exists (0, cast_int64 (Zsum rm - 1)). split.
  - apply (list_elem_of_lookup_2 _ 0%nat).
    unfold Model.candidate_last, sum_axis1, nrows, arange. rewrite ?Hrm. done.
  - simpl.
    assert (la = []) as ->.
    { apply length_zero_iff_nil. rewrite <- Hcla.
      unfold wf in Hwla. rewrite Hla in Hwla. by inversion Hwla. }
    unfold np_index. simpl. by repeat case_decide; try lia.
Qed.

End DestinationCases.

(** ** When the extraction of the recurrent states raises *)

Section PathDefined.
Local Open Scope Z_scope.

Lemma last_id_lookup (mask : matrix Z) (b : nat) (r : list Z) :
  wf mask -> rows mask !! b = Some r ->
  RecurrentEncoder.last_id (transpose mask) !! b = Some (cast_int64 (Zsum r - 1)).
Proof.
  intros Hwf Hr. rewrite last_id_transpose by done. by apply candidate_last_lookup.
Qed.

(** X5: On a binary mask of [T] time steps, with states for [T] time steps and
    for every example, the extraction raises nothing when [T >= 2], or
    when [T = 1] and every example has a valid position. *)
Theorem path_representation_defined (d : nat) (path : list (matrix R))
    (mask : matrix Z) :
  wf mask -> binary mask -> Z.of_nat (ncols mask) < 2 ^ 63 ->
  length path = ncols mask ->
  Forall (fun p => (nrows mask <= nrows p)%nat) path ->
  (2 <= ncols mask)%nat
    \/ ((1 <= ncols mask)%nat /\ Forall (fun r => 1 <= Zsum r) (rows mask)) ->
  is_Some (RecurrentEncoder.path_representation d path
             (RecurrentEncoder.last_id (transpose mask))).
Proof.
  intros Hwf Hbin HT Hlen Hpath Hcase.
  unfold RecurrentEncoder.path_representation.
  assert (is_Some (np_index path 0)) as [p0 ->].
  { unfold np_index. rewrite decide_True by (destruct Hcase; lia).
    apply lookup_lt_is_Some. destruct Hcase; lia. }
  simpl_option. unfold index3.
  match goal with |- is_Some ((mapM ?f ?l ≫= _) ≫= _) =>
    assert (is_Some (mapM f l)) as [rs ->]; [|done] end.
  apply mapM_is_Some, Forall_lookup. intros b [i j] Hb. simpl.
  apply lookup_zip_with_Some in Hb as (? & ? & [= <- <-] & Hi & Hj).
  rewrite list_lookup_fmap in Hi. apply fmap_Some in Hi as (l & Hl & ->).
  unfold arange in Hj. rewrite list_lookup_fmap in Hj.
  apply fmap_Some in Hj as (b' & [-> Hb']%lookup_seq & ->). simpl in *.
  rewrite last_id_length in Hb'. change (ncols (transpose mask)) with (nrows mask) in Hb'.
  destruct (rows mask !! b) as [r|] eqn:Hr;
    [|apply lookup_ge_None in Hr; unfold nrows in Hb'; lia].
  rewrite (last_id_lookup mask b r Hwf Hr) in Hl. injection Hl as <-.
  assert (length r = ncols mask) as Hlr by wf_length Hwf.
  assert (0 <= Zsum r <= Z.of_nat (ncols mask)) as Hs.
  { rewrite <- Hlr. apply Zsum_binary.
    unfold binary in Hbin. rewrite Forall_forall in Hbin.
    apply Hbin. by eapply list_elem_of_lookup_2. }
  assert (1 <= Zsum r \/ (2 <= ncols mask)%nat) as Hok.
  { destruct Hcase as [?|[_ Hall]]; [by right|left].
    rewrite Forall_forall in Hall. apply Hall. by eapply list_elem_of_lookup_2. }
  rewrite !cast_int64_small by (rewrite ?cast_int64_small; lia).
  assert (is_Some (np_index path (Zsum r - 1 - 1))) as [m Hm].
  { unfold np_index. rewrite Hlen.
    destruct (decide (0 <= Zsum r - 1 - 1 < Z.of_nat (ncols mask))).
    - apply lookup_lt_is_Some. lia.
    - rewrite decide_True by lia. apply lookup_lt_is_Some. lia. }
  rewrite Hm. simpl. rewrite np_index_nat. apply lookup_lt_is_Some.
  rewrite Forall_forall in Hpath. specialize (Hpath m (np_index_elem_of _ _ _ Hm)).
  unfold nrows in *. lia.
Qed.

(** X6: With a single time step, an example without any valid position makes
    the extraction raise: the index -2 is out of range. *)
Theorem path_representation_raises_on_padding_row (d : nat)
    (path : list (matrix R)) (mask : matrix Z) (b : nat) (r : list Z) :
  wf mask ->
  (length path <= 1)%nat ->
  rows mask !! b = Some r ->
  Zsum r = 0 ->
  RecurrentEncoder.path_representation d path
    (RecurrentEncoder.last_id (transpose mask)) = None.
Proof.
  intros Hwf Hlen Hr Hsum. unfold RecurrentEncoder.path_representation.
  destruct (np_index path 0) as [p0|]; [|done]. simpl_option.
  unfold index3.
  match goal with |- (mapM ?f ?l ≫= _) ≫= _ = None =>
    assert (mapM f l = None) as ->; [|done] end.
  apply mapM_None, Exists_exists. exists (-2, Z.of_nat b). split.
  - apply (list_elem_of_lookup_2 _ b).
    rewrite lookup_zip_with, list_lookup_fmap, (last_id_lookup mask b r Hwf Hr).
    rewrite Hsum. simpl. rewrite arange_lookup; [done|].
    rewrite last_id_length. change (ncols (transpose mask)) with (nrows mask).
    by eapply lookup_lt_Some.
  - simpl. unfold np_index. rewrite !decide_False by lia. done.
Qed.

End PathDefined.

(** ** The shape of the prediction and the order of the prefixes *)

Section PrefixBatch.
Context (train_gps_mean train_gps_std : R * R).

Lemma select_into_origin (key : string -> string) (names : list string)
    (kwargs d d' : gmap string array) (k : string) (v : array) :
  select_into key names kwargs d = Some d' ->
  d' !! k = Some v ->
  (exists name, name ∈ names /\ kwargs !! key name = Some v) \/ d !! k = Some v.
Proof.
  revert d. induction names as [|n names IH]; intros d; simpl.
  - intros [= <-]. by right.
  - intros (v' & Hv' & Hsel)%bind_Some Hk.
    destruct (IH _ Hsel Hk) as [(name & Hin & Hname)|Hd].
    + left. exists name. split; [by right | done].
    + apply lookup_insert_Some in Hd as [[_ <-]|[_ Hd]]; [|by right].
      left. exists n. split; [by left | done].
Qed.

Lemma select_origin (key : string -> string) (names : list string)
    (kwargs d' : gmap string array) (k : string) (v : array) :
  select key names kwargs = Some d' ->
  d' !! k = Some v ->
  exists name, name ∈ names /\ kwargs !! key name = Some v.
Proof.
  intros Hsel Hk. destruct (select_into_origin _ _ _ _ _ _ _ Hsel Hk) as [?|Hd]; [done|].
  by rewrite lookup_empty in Hd.
Qed.

(** A batchwise encoder returns one representation per example. *)
Lemma apply_nrows (self : RecurrentEncoder.t) (n : nat) (args : gmap string array)
    (c : matrix R) :
  (forall k v, args !! k = Some v -> batch_size v = n) ->
  batchwise_rec (RecurrentEncoder.rec self) ->
  batchwise_embedder (RecurrentEncoder.context_embedder self) ->
  batchwise_mlp (RecurrentEncoder.rec_to_output self) ->
  RecurrentEncoder.apply train_gps_mean train_gps_std self args = Some c ->
  nrows c = n.
Proof.
  intros Hargs Hrec Hemb Hmlp Hc.
  by apply (apply_permute train_gps_mean train_gps_std self (seq 0 n) n args).
Qed.

(** X14: With batchwise bricks, a batch of [n] prefixes and [m] candidates
    gives an attention matrix of shape [n x m] and a prediction of shape
    [n x 2]. *)
Theorem prediction_shape (c : Model.config) (kwargs : gmap string array)
    (n m : nat) (out : matrix R) :
  let pe := Model.prefix_encoder_config c in
  batchwise_rec (RecurrentEncoder.rec_brick pe) ->
  batchwise_embedder (RecurrentEncoder.embedder pe) ->
  batchwise_mlp (RecurrentEncoder.mlp_brick pe) ->
  (forall name v,
     name ∈ RecurrentEncoder.inputs (Model.prefix_encoder (Model.init c)) ->
     kwargs !! name = Some v -> batch_size v = n) ->
  (forall name v,
     name ∈ RecurrentEncoder.inputs (Model.candidate_encoder (Model.init c)) ->
     kwargs !! String.append "candidate_" name = Some v -> batch_size v = m) ->
  Model.predict train_gps_mean train_gps_std (Model.init c) kwargs = Some out ->
  wf out /\ nrows out = n /\ ncols out = 2%nat
  /\ exists a, Model.similarity train_gps_mean train_gps_std (Model.init c) kwargs
               = Some a
       /\ wf a /\ nrows a = n /\ ncols a = m.
Proof.
  intros pe Hrec Hemb Hmlp Hn Hm Hout.
  apply predict_Some in Hout as (a & d & Ha & Hd & Hdot).
  pose proof (dot_wf _ _ _ Hdot) as Hwfout.
  pose proof (candidate_destination_ncols _ _ Hd) as Hd2.
  destruct (dot_Some _ _ _ Hdot) as [_ Hout].
  destruct (similarity_Some _ _ _ _ _ Ha) as (s & Hs & Hwf & Hsoft).
  unfold Model.similarity_score in Hs.
  apply bind_Some in Hs as (p & Hp & Hs).
  apply bind_Some in Hs as (cr & Hcr & Hs).
  destruct (dot_Some _ _ _ Hs) as [_ Hseq].
  unfold Model.prefix_representation in Hp.
  apply bind_Some in Hp as (dp & Hdp & Hp).
  apply apply_nrows with (n := n) in Hp; try done.
  2:{ intros k v Hk. destruct (select_origin _ _ _ _ _ _ Hdp Hk) as (name & Hin & Hv).
      by apply (Hn name). }
  unfold Model.candidate_representation in Hcr.
  apply bind_Some in Hcr as (e & He & Hcr). injection Hcr as Hcr.
  unfold Model.encoded_candidates in He.
  apply bind_Some in He as (dc & Hdc & He).
  apply apply_nrows with (n := m) in He; try done.
  2:{ intros k v Hk. destruct (select_origin _ _ _ _ _ _ Hdc Hk) as (name & Hin & Hv).
      by apply (Hm name). }
  assert (nrows cr = m) as Hcrm.
  { rewrite <- Hcr. destruct (Model.normalize_representation _); [|done].
    by rewrite nrows_normalize_rows. }
  assert (nrows s = n) as Hsn.
  { rewrite Hseq. unfold nrows in *. simpl. by rewrite length_map. }
  assert (ncols s = m) as Hsm by (by rewrite Hseq).
  assert (nrows a = n) as Han.
  { rewrite Hsoft. unfold nrows, softmax in *. simpl. by rewrite length_map. }
  split; [done|]. split.
  { rewrite Hout. unfold nrows in *. simpl. by rewrite length_map. }
  split; [by rewrite Hout|].
  exists a. split; [done|]. split; [rewrite Hsoft; by apply softmax_wf|].
  split; [done|]. by rewrite Hsoft.
Qed.

Lemma permute_prefixes_lookup_candidate (σ : list nat)
    (kwargs : gmap string array) (k : string) :
  String.prefix "candidate_" k = true ->
  permute_prefixes σ kwargs !! k = kwargs !! k.
Proof.
  intros Hk. unfold permute_prefixes. rewrite map_lookup_imap.
  destruct (kwargs !! k); simpl; by rewrite ?Hk.
Qed.

Lemma permute_prefixes_lookup_other (σ : list nat)
    (kwargs : gmap string array) (k : string) :
  String.prefix "candidate_" k = false ->
  permute_prefixes σ kwargs !! k = permute_array σ <$> kwargs !! k.
Proof.
  intros Hk. unfold permute_prefixes. rewrite map_lookup_imap.
  destruct (kwargs !! k); simpl; by rewrite ?Hk.
Qed.

Lemma dot_permute_rows_l (σ : list nat) (a b : matrix R) :
  σ ≡ₚ seq 0 (nrows a) ->
  dot (permute_rows σ a) b = permute_rows σ <$> dot a b.
Proof.
  intros Hσ. unfold dot. simpl. case_decide; [|done]. simpl.
  unfold permute_rows. simpl. do 2 f_equal.
  by apply (permute_fmap (fun ra : list R =>
    map (fun j => Rsum (zip_with Rmult ra (map (fun rb : list R => rb !!! j) (rows b))))
        (seq 0 (ncols b)))).
Qed.

Lemma softmax_permute_rows (σ : list nat) (m : matrix R) :
  σ ≡ₚ seq 0 (nrows m) -> softmax (permute_rows σ m) = permute_rows σ (softmax m).
Proof.
  intros Hσ. unfold softmax, permute_rows. simpl. f_equal.
  by apply (permute_fmap softmax_row).
Qed.

(** X15: Reordering the prefixes reorders the predictions in the same way: the
    prediction for a prefix does not depend on its place in the batch.
    The examples of every array under a key that does not start with
    [candidate_] are reordered by the same permutation [σ] of the [n]
    prefixes. *)
Theorem predict_follows_prefix_order (c : Model.config)
    (σ : list nat) (n : nat) (kwargs : gmap string array) :
  let pe := Model.prefix_encoder_config c in
  σ ≡ₚ seq 0 n ->
  (forall k v, kwargs !! k = Some v -> String.prefix "candidate_" k = false ->
     batch_size v = n) ->
  Forall (fun name => String.prefix "candidate_" name = false)
         (ce_inputs (RecurrentEncoder.embedder pe)) ->
  batchwise_rec (RecurrentEncoder.rec_brick pe) ->
  batchwise_embedder (RecurrentEncoder.embedder pe) ->
  batchwise_mlp (RecurrentEncoder.mlp_brick pe) ->
  Model.predict train_gps_mean train_gps_std (Model.init c)
    (permute_prefixes σ kwargs)
  = permute_rows σ
      <$> Model.predict train_gps_mean train_gps_std (Model.init c) kwargs.
Proof.
  intros pe Hσ Hsize Hnames Hrec Hemb Hmlp.
  assert (forall name,
            name ∈ RecurrentEncoder.inputs (Model.prefix_encoder (Model.init c)) ->
            String.prefix "candidate_" name = false) as Hinputs.
  { intros name Hname. simpl in Hname.
    apply elem_of_app in Hname as [Hname|Hname].
    - rewrite Forall_forall in Hnames. by apply Hnames.
    - repeat (apply elem_of_cons in Hname as [->|Hname]; [done|]).
      by apply elem_of_nil in Hname. }
  assert (Model.prefix_representation train_gps_mean train_gps_std (Model.init c)
            (permute_prefixes σ kwargs)
          = permute_rows σ
              <$> Model.prefix_representation train_gps_mean train_gps_std
                    (Model.init c) kwargs
          /\ forall p, Model.prefix_representation train_gps_mean train_gps_std
                         (Model.init c) kwargs = Some p -> nrows p = n) as [Hp1 Hp2].
  { unfold Model.prefix_representation.
    set (names := RecurrentEncoder.inputs (Model.prefix_encoder (Model.init c))) in *.
    assert (select (fun name => name) names (permute_prefixes σ kwargs)
            = (fun d : gmap string array => permute_array σ <$> d)
                <$> select (fun name => name) names kwargs) as ->.
    { rewrite <- select_fmap. unfold select. apply select_into_ext.
      intros name Hname. rewrite lookup_fmap.
      by apply permute_prefixes_lookup_other, Hinputs. }
    destruct (select _ names kwargs) as [d|] eqn:Hd; [|done].
    simpl_option. apply apply_permute; try done.
    intros k v Hk. destruct (select_origin _ _ _ _ _ _ Hd Hk) as (name & Hin & Hv).
    apply (Hsize _ _ Hv). by apply Hinputs. }
  assert (Model.encoded_candidates train_gps_mean train_gps_std (Model.init c)
            (permute_prefixes σ kwargs)
          = Model.encoded_candidates train_gps_mean train_gps_std (Model.init c) kwargs)
    as He.
  { apply encoded_candidates_ext. intros name _.
    apply permute_prefixes_lookup_candidate, prefix_candidate. }
  assert (Model.candidate_destination (permute_prefixes σ kwargs)
          = Model.candidate_destination kwargs) as Hd.
  { unfold Model.candidate_destination.
    by rewrite !permute_prefixes_lookup_candidate. }
  unfold Model.predict, Model.similarity, Model.similarity_score,
    Model.candidate_representation.
  rewrite Hp1, He, Hd.
  destruct (Model.prefix_representation _ _ _ kwargs) as [p|]; [|done].
  specialize (Hp2 p eq_refl). simpl_option.
  destruct (Model.encoded_candidates _ _ _ kwargs) as [e|]; [|done]. simpl_option.
  rewrite dot_permute_rows_l by (by rewrite Hp2).
  destruct (dot p _) as [s|] eqn:Hs; [|done]. simpl_option.
  assert (nrows s = n) as Hns.
  { apply dot_Some in Hs as [_ ->]. unfold nrows in *. simpl. by rewrite length_map. }
  rewrite softmax_permute_rows by (by rewrite Hns).
  destruct (Model.candidate_destination kwargs) as [d|]; [|done]. simpl_option.
  apply dot_permute_rows_l.
  unfold nrows, softmax in *. simpl. by rewrite length_map, Hns.
Qed.

End PrefixBatch.

(** ** The width of the input of the output layer *)

Section Widths.
Context (train_gps_mean train_gps_std : R * R).

Lemma apply_rec_to_output_input (self : RecurrentEncoder.t) (args : gmap string array) :
  RecurrentEncoder.apply train_gps_mean train_gps_std self args
  = rec_to_output_input train_gps_mean train_gps_std self args
      ≫= RecurrentEncoder.rec_to_output self.
Proof.
  unfold RecurrentEncoder.apply, rec_to_output_input.
  repeat (match goal with
          | |- context [?o ≫= _] =>
              lazymatch o with
              | context [_ ≫= _] => fail
              | _ => destruct o; simpl; [|done]
              end
          end); done.
Qed.

Lemma stack_channels_width (a b : matrix R) (x : list (matrix R)) :
  RecurrentEncoder.stack_channels a b = Some x ->
  Forall (fun p => wf p /\ ncols p = 2%nat) x.
Proof.
  unfold RecurrentEncoder.stack_channels. case_decide; [|done]. intros [= <-].
  apply Forall_forall. intros p Hp.
  apply list_elem_of_lookup in Hp as (t & Hp).
  apply lookup_zip_with_Some in Hp as (ra & rb & -> & _ & _).
  split; [|done]. unfold wf. simpl. apply Forall_forall.
  intros r Hr. apply list_elem_of_lookup in Hr as (i & Hr).
  by apply lookup_zip_with_Some in Hr as (? & ? & -> & _ & _).
Qed.

Lemma hconcat_wf (a b m : matrix R) :
  wf a -> wf b -> hconcat a b = Some m -> wf m /\ ncols m = (ncols a + ncols b)%nat.
Proof.
  intros Ha Hb. unfold hconcat. case_decide; [|done]. intros [= <-].
  split; [|done]. unfold wf in *. simpl. apply Forall_forall. intros r Hr.
  apply list_elem_of_lookup in Hr as (i & Hr).
  apply lookup_zip_with_Some in Hr as (ra & rb & -> & Hra & Hrb).
  rewrite length_app. rewrite Forall_forall in Ha, Hb.
  by rewrite (Ha ra), (Hb rb) by (by eapply list_elem_of_lookup_2).
Qed.

Lemma concatenate_axis1_wf (ms : list (matrix R)) (m : matrix R) :
  Forall wf ms -> concatenate_axis1 ms = Some m ->
  wf m /\ ncols m = sum_list (ncols <$> ms).
Proof.
  intros Hms. revert m. induction Hms as [|a ms Ha Hms IH]; intros m; [done|].
  destruct ms as [|b ms].
  - intros [= <-]. split; [done|]. simpl. lia.
  - change (concatenate_axis1 (a :: b :: ms))
      with (concatenate_axis1 (b :: ms) ≫= hconcat a).
    intros (c & Hc & Hm)%bind_Some. destruct (IH c Hc) as [Hwc Hnc].
    destruct (hconcat_wf a c m Ha Hwc Hm) as [Hwm Hnm].
    split; [done|]. rewrite Hnm, Hnc. done.
Qed.

(** X16: The array given to the output layer is rectangular and as wide as
    the first of the dimensions that [__init__] declares for the [MLP],
    [rto_in]: provided the recurrent brick returns, for inputs of two
    channels, rectangular states of width [2 * rec_state_dim], and the
    embedder rectangular embeddings of the widths of [dim_embeddings]. *)
Theorem rec_to_output_input_width (self : RecurrentEncoder.t)
    (dim_embeddings : list (string * nat * nat)) (dim_hidden : list nat)
    (output_dim : nat) (args : gmap string array) (inputs : matrix R) :
  let d := RecurrentEncoder.rec_state_dim (RecurrentEncoder.cfg self) in
  (forall x mask path,
     Forall (fun p => wf p /\ ncols p = 2%nat) x ->
     RecurrentEncoder.rec self x mask = Some path ->
     Forall (fun p => wf p /\ ncols p = (d * 2)%nat) path) ->
  (forall ctx es,
     ce_apply (RecurrentEncoder.context_embedder self) ctx = Some es ->
     Forall2 (fun e x => wf e /\ ncols e = x.2) es dim_embeddings) ->
  rec_to_output_input train_gps_mean train_gps_std self args = Some inputs ->
  wf inputs
  /\ head (rec_to_output_dims d dim_embeddings dim_hidden output_dim)
     = Some (ncols inputs).
Proof.
  intros d Hrec Hemb Hin. unfold rec_to_output_input in Hin.
  apply bind_Some in Hin as (lat & _ & Hin).
  apply bind_Some in Hin as (lon & _ & Hin).
  apply bind_Some in Hin as (mask & _ & Hin).
  apply bind_Some in Hin as (rec_in & Hrin & Hin).
  apply bind_Some in Hin as (path & Hpath & Hin).
  apply bind_Some in Hin as (pr & Hpr & Hin).
  apply bind_Some in Hin as (ctx & _ & Hin).
  apply bind_Some in Hin as (es & Hes & Hin).
  apply stack_channels_width in Hrin.
  specialize (Hrec _ _ _ Hrin Hpath). specialize (Hemb _ _ Hes).
  rewrite Forall_forall in Hrec.
  subst d. set (d := RecurrentEncoder.rec_state_dim _) in *. clearbody d.
  unfold RecurrentEncoder.path_representation in Hpr.
  apply bind_Some in Hpr as (first & Hfirst & Hpr).
  apply bind_Some in Hpr as (last & Hlast & [= <-]). simpl in Hin.
  destruct (Hrec first (np_index_elem_of _ _ _ Hfirst)) as [Hwfirst Hnfirst].
  assert (wf (cols_last d first) /\ ncols (cols_last d first) = d) as [Hw1 Hn1].
  { unfold cols_last. case_decide as Hd.
    - split; [done|]. rewrite Hnfirst, Hd. reflexivity.
    - split; [|simpl; lia]. unfold wf in *. simpl. rewrite Forall_fmap.
      eapply Forall_impl; [exact Hwfirst|]. intros r Hr. simpl.
      rewrite length_drop. simpl in Hr. lia. }
  assert (wf (cols_first d last) /\ ncols (cols_first d last) = d) as [Hw2 Hn2].
  { unfold index3 in Hlast. apply bind_Some in Hlast as (rs & Hrs & [= <-]).
    assert (from_option ncols 0%nat (head path) = (d * 2)%nat) as Hhead.
    { destruct path as [|p0 path']; [done|]. simpl. apply Hrec. by left. }
    unfold cols_first. simpl. rewrite Hhead. split; [|lia].
    unfold wf. simpl. rewrite Forall_fmap. apply Forall_forall. intros r Hr. simpl.
    apply mapM_Some in Hrs. apply list_elem_of_lookup in Hr as (b & Hr).
    destruct (Forall2_lookup_r _ _ _ _ _ Hrs Hr) as (ij & _ & Hij).
    apply bind_Some in Hij as (m & Hm & Hrm).
    destruct (Hrec m (np_index_elem_of _ _ _ Hm)) as [Hwm Hnm].
    unfold wf in Hwm. rewrite Forall_forall in Hwm.
    rewrite length_take, (Hwm r (np_index_elem_of _ _ _ Hrm)). lia. }
  assert (Forall wf es /\ sum_list (ncols <$> es)
                          = sum_list (map (fun x => x.2) dim_embeddings)) as [Hwes Hnes].
  { clear Hes Hin. induction Hemb as [|e x es xs [He1 He2] _ [IH1 IH2]]; [done|].
    split; [by constructor|]. simpl. rewrite He2. f_equal. exact IH2. }
  destruct (concatenate_axis1_wf (cols_last d first :: cols_first d last :: es) inputs)
    as [Hw Hn]; [by repeat constructor | done |].
  split; [done|]. simpl. f_equal. rewrite Hn. unfold rto_in.
  change (sum_list (ncols <$> cols_last d first :: cols_first d last :: es))
    with (ncols (cols_last d first)
          + (ncols (cols_first d last) + sum_list (ncols <$> es)))%nat.
  rewrite Hn1, Hn2, Hnes. lia.
Qed.

End Widths.

(** ** The initialisation reaches the bricks *)

Section Initialisation.
Context {init : Type}.
Implicit Types (s : gmap nat (gmap string (Bricks.attr init))).

Lemma push_initialization_config_frame (self : Bricks.encoder) s (r : nat) :
  r ∉ Bricks.children self ->
  Bricks._push_initialization_config (init := init) self s !! r = s !! r.
Proof.
  unfold Bricks._push_initialization_config.
  generalize (Bricks.children self). intros l. revert s.
  induction l as [|b l IH]; intros s Hr; [done|]. simpl.
  rewrite IH by (intros ?; apply Hr; by right).
  unfold Bricks.set_attr. rewrite !lookup_alter_ne; [done|..];
    intros ->; apply Hr; by left.
Qed.

Lemma push_initialization_config_child (self : Bricks.encoder) s (r : nat)
    (o : gmap string (Bricks.attr init)) :
  r ∈ Bricks.children self ->
  s !! r = Some o ->
  Bricks._push_initialization_config self s !! r
  = Some (<["biases_init" := Bricks.Init (Bricks.biases_init self)]>
          (<["weights_init" := Bricks.Init (Bricks.weights_init self)]> o)).
Proof.
  unfold Bricks._push_initialization_config.
  generalize (Bricks.children self). intros l.
  set (w := Bricks.Init (Bricks.weights_init self)).
  set (b := Bricks.Init (Bricks.biases_init self)).
  assert (forall l s o', s !! r = Some (<["biases_init" := b]> (<["weights_init" := w]> o')) ->
            foldl (fun s brick => Bricks.set_attr brick "biases_init" b
                                   (Bricks.set_attr brick "weights_init" w s)) s l !! r
            = Some (<["biases_init" := b]> (<["weights_init" := w]> o'))) as Hkeep.
  { clear. induction l as [|c l IH]; intros s o' Hs; [done|]. simpl.
    apply IH. unfold Bricks.set_attr.
    destruct (decide (c = r)) as [->|Hne].
    - rewrite !lookup_alter_eq, Hs. simpl. f_equal.
      apply map_eq. intros k.
      destruct (decide (k = "biases_init")) as [->|Hk1];
        [by rewrite !lookup_insert_eq|].
      rewrite (lookup_insert_ne _ "biases_init" k) by done.
      destruct (decide (k = "weights_init")) as [->|Hk2].
      + rewrite lookup_insert_eq. rewrite lookup_insert_ne by done.
        by rewrite lookup_insert_eq.
      + by rewrite !lookup_insert_ne by done.
    - by rewrite !lookup_alter_ne. }
  revert s. induction l as [|c l IH]; intros s Hr Hs; [by apply elem_of_nil in Hr|].
  simpl. destruct (decide (c = r)) as [->|Hne].
  - apply Hkeep. unfold Bricks.set_attr. by rewrite !lookup_alter_eq, Hs.
  - apply elem_of_cons in Hr as [->|Hr]; [done|].
    apply IH; [done|]. unfold Bricks.set_attr. by rewrite !lookup_alter_ne.
Qed.

End Initialisation.

Section InitialisationOfAnEncoder.
Context {init : Type}.

(** X17: After [__init__] and [_push_initialization_config], each of the four
    bricks, reached through its own field of the encoder, carries the
    initialisation schemes of the configuration, its other attributes
    being those its constructor gave it; the objects that existed before
    are unchanged. *)
Theorem initialization_reaches_every_brick (weights biases : init)
    (o1 o2 o3 o4 : gmap string (Bricks.attr init))
    (s0 : gmap nat (gmap string (Bricks.attr init))) :
  let self := (Bricks.__init__ weights biases o1 o2 o3 o4 s0).1 in
  let s1 := (Bricks.__init__ weights biases o1 o2 o3 o4 s0).2 in
  let s2 := Bricks._push_initialization_config self s1 in
  let pushed o :=
    <["biases_init" := Bricks.Init biases]> (<["weights_init" := Bricks.Init weights]> o) in
  s2 !! Bricks.context_embedder self = Some (pushed o1)
  /\ s2 !! Bricks.rec self = Some (pushed o2)
  /\ s2 !! Bricks.fork self = Some (pushed o3)
  /\ s2 !! Bricks.rec_to_output self = Some (pushed o4)
  /\ forall r, is_Some (s0 !! r) -> s2 !! r = s0 !! r.
Proof.
  unfold Bricks.__init__, Bricks.new. simpl.
  set (r1 := fresh (dom s0)).
  set (s01 := <[r1 := o1]> s0).
  set (r2 := fresh (dom s01)).
  set (s02 := <[r2 := o2]> s01).
  set (r3 := fresh (dom s02)).
  set (s03 := <[r3 := o3]> s02).
  set (r4 := fresh (dom s03)).
  set (s04 := <[r4 := o4]> s03).
  assert (s0 !! r1 = None) as H1 by apply not_elem_of_dom, is_fresh.
  assert (s01 !! r2 = None) as H2 by apply not_elem_of_dom, is_fresh.
  assert (s02 !! r3 = None) as H3 by apply not_elem_of_dom, is_fresh.
  assert (s03 !! r4 = None) as H4 by apply not_elem_of_dom, is_fresh.
  assert (r2 <> r1) as H21.
  { intros E. subst s01. rewrite E, lookup_insert_eq in H2. done. }
  assert (r3 <> r2) as H32.
  { intros E. subst s02. rewrite E, lookup_insert_eq in H3. done. }
  assert (r3 <> r1) as H31.
  { intros E. subst s02 s01. rewrite lookup_insert_ne in H3 by done.
    rewrite E, lookup_insert_eq in H3. done. }
  assert (r4 <> r3) as H43.
  { intros E. subst s03. rewrite E, lookup_insert_eq in H4. done. }
  assert (r4 <> r2) as H42.
  { intros E. subst s03 s02. rewrite lookup_insert_ne in H4 by done.
    rewrite E, lookup_insert_eq in H4. done. }
  assert (r4 <> r1) as H41.
  { intros E. subst s03 s02 s01. rewrite !lookup_insert_ne in H4 by done.
    rewrite E, lookup_insert_eq in H4. done. }
  set (self := {| Bricks.weights_init := weights; Bricks.biases_init := biases;
                  Bricks.context_embedder := r1; Bricks.rec := r2;
                  Bricks.fork := r3; Bricks.rec_to_output := r4;
                  Bricks.children := [r1; r2; r3; r4] |}).
  split_and!.
  - apply (push_initialization_config_child self); [by left|].
    subst s04 s03 s02 s01. rewrite !lookup_insert_ne by done. apply lookup_insert_eq.
  - apply (push_initialization_config_child self); [right; by left|].
    subst s04 s03 s02. rewrite !lookup_insert_ne by done. apply lookup_insert_eq.
  - apply (push_initialization_config_child self); [do 2 right; by left|].
    subst s04 s03. rewrite !lookup_insert_ne by done. apply lookup_insert_eq.
  - apply (push_initialization_config_child self); [do 3 right; by left|].
    subst s04. apply lookup_insert_eq.
  - intros r [o Hr].
    assert (r <> r1) by (intros ->; congruence).
    assert (r <> r2).
    { intros ->. subst s01. rewrite lookup_insert_ne in H2 by done. congruence. }
    assert (r <> r3).
    { intros ->. subst s02 s01. rewrite !lookup_insert_ne in H3 by done. congruence. }
    assert (r <> r4).
    { intros ->. subst s03 s02 s01. rewrite !lookup_insert_ne in H4 by done.
      congruence. }
    rewrite push_initialization_config_frame.
    + subst s04 s03 s02 s01. by rewrite !lookup_insert_ne by done.
    + simpl. intros Hin.
      repeat (apply elem_of_cons in Hin as [?|Hin]; [done|]).
      by apply elem_of_nil in Hin.
Qed.

End InitialisationOfAnEncoder.

(** ** The keys that [cost] reads *)

Section Cost.
Context (train_gps_mean train_gps_std : R * R).
Context (erdist : matrix R -> matrix R -> option (list R)).

Lemma arrays_lookup_None (kwargs : gmap string value) (name : string) :
  kwargs !! name = None -> arrays kwargs !! name = None.
Proof. intros Hn. unfold arrays. by rewrite lookup_omap, Hn. Qed.

Lemma arrays_lookup_ext (kw1 kw2 : gmap string value) (name : string) :
  kw1 !! name = kw2 !! name -> arrays kw1 !! name = arrays kw2 !! name.
Proof. intros Hn. unfold arrays. by rewrite !lookup_omap, Hn. Qed.

(** X18: Every name that [cost] declares is needed: without it [cost] raises. *)
Theorem cost_requires_declared_inputs (c : Model.config)
    (kwargs : gmap string value) (name : string) :
  name ∈ Model.cost_inputs (Model.init c) ->
  kwargs !! name = None ->
  cost train_gps_mean train_gps_std erdist (Model.init c) kwargs = None.
Proof.
  intros Hin Hnone. unfold cost. unfold Model.cost_inputs in Hin.
  apply elem_of_app in Hin as [Hin|Hin].
  - by rewrite (predict_missing_input train_gps_mean train_gps_std c
                  (arrays kwargs) name Hin (arrays_lookup_None _ _ Hnone)).
  - destruct (Model.predict _ _ _ _); [|done]. simpl.
    apply elem_of_cons in Hin as [->|Hin]; [by rewrite Hnone|].
    apply elem_of_cons in Hin as [->|Hin]; [|by apply elem_of_nil in Hin].
    rewrite Hnone. by destruct (kwargs !! "destination_latitude" ≫= as_vector).
Qed.

(** X19: [cost] reads the batch under its declared names only. *)
Theorem cost_reads_declared_inputs_only (c : Model.config)
    (kw1 kw2 : gmap string value) :
  (forall name, name ∈ Model.cost_inputs (Model.init c) -> kw1 !! name = kw2 !! name) ->
  cost train_gps_mean train_gps_std erdist (Model.init c) kw1
  = cost train_gps_mean train_gps_std erdist (Model.init c) kw2.
Proof.
  intros Hext. unfold cost.
  rewrite (predict_ext train_gps_mean train_gps_std c (arrays kw1) (arrays kw2)).
  - rewrite (Hext "destination_latitude"), (Hext "destination_longitude"); [done|..];
      unfold Model.cost_inputs; apply elem_of_app; right.
    + right. by left.
    + by left.
  - intros name Hname. apply arrays_lookup_ext, Hext.
    unfold Model.cost_inputs. apply elem_of_app. by left.
Qed.

End Cost.

(** ** Prefixes given as their own candidates *)

Section SelfSimilarity.
Context (train_gps_mean train_gps_std : R * R).
Local Open Scope R_scope.

Lemma select_into_ext_keys (key1 key2 : string -> string) (names : list string)
    (kw1 kw2 d : gmap string array) :
  (forall name, name ∈ names -> kw1 !! key1 name = kw2 !! key2 name) ->
  select_into key1 names kw1 d = select_into key2 names kw2 d.
Proof.
  revert d. induction names as [|name names IH]; intros d Hext; simpl; [done|].
  rewrite <- (Hext name) by left.
  destruct (kw1 !! key1 name) as [v|]; simpl; [|done].
  apply IH. intros name' Hname'. apply Hext. by right.
Qed.

Lemma Rsum_zip_with_comm (a b : list R) :
  Rsum (zip_with Rmult a b) = Rsum (zip_with Rmult b a).
Proof.
  revert b. induction a as [|x a IH]; intros [|y b]; simpl; try done.
  rewrite IH. lra.
Qed.

(** X20: Both encodings come from the prefix encoder: when the candidate
    encoder declares the same metadata and the batch holds, under every
    [candidate_] key, the array of the prefixes, the candidates are encoded
    exactly as the prefixes, and without normalisation the score matrix is
    symmetric. *)
Theorem prefixes_as_candidates_score_symmetric (c : Model.config)
    (kwargs : gmap string array) (p : matrix R) (i j : nat) :
  Model.normalize_representation c = false ->
  ce_inputs (RecurrentEncoder.embedder (Model.candidate_encoder_config c))
    = ce_inputs (RecurrentEncoder.embedder (Model.prefix_encoder_config c)) ->
  (forall name,
     name ∈ RecurrentEncoder.inputs (Model.prefix_encoder (Model.init c)) ->
     kwargs !! String.append "candidate_" name = kwargs !! name) ->
  Model.prefix_representation train_gps_mean train_gps_std (Model.init c) kwargs
    = Some p ->
  wf p ->
  Model.encoded_candidates train_gps_mean train_gps_std (Model.init c) kwargs = Some p
  /\ exists s,
       Model.similarity_score train_gps_mean train_gps_std (Model.init c) kwargs
         = Some s
       /\ rows s !! i ≫= (fun row => row !! j) = rows s !! j ≫= (fun row => row !! i).
Proof.
  intros Hflag Hnames Hsame Hp Hwf.
  assert (Model.encoded_candidates train_gps_mean train_gps_std (Model.init c) kwargs
          = Some p) as He.
  { rewrite <- Hp. unfold Model.encoded_candidates, Model.prefix_representation, select.
    simpl. rewrite Hnames. f_equal. apply select_into_ext_keys.
    intros name Hname. apply Hsame. simpl. done. }
  split; [done|].
  unfold Model.similarity_score, Model.candidate_representation.
  rewrite Hp, He. simpl. rewrite Hflag.
  destruct (dot p (transpose p)) as [s|] eqn:Hs.
  2:{ unfold dot in Hs. rewrite nrows_transpose' in Hs. by rewrite decide_True in Hs. }
  exists s. split; [done|].
  assert (forall i j pi, rows p !! i = Some pi -> rows p !! j = None ->
            rows s !! i ≫= (fun row => row !! j) = None) as Hout.
  { intros i' j' pi Hi Hj. destruct (dot_Some _ _ _ Hs) as [_ ->]. simpl.
    rewrite list_lookup_fmap, Hi. simpl. rewrite list_lookup_fmap.
    rewrite lookup_seq_ge; [done|]. apply lookup_ge_None in Hj.
    unfold nrows. lia. }
  assert (forall i, rows p !! i = None -> rows s !! i = None) as Hnone.
  { intros i' Hi. destruct (dot_Some _ _ _ Hs) as [_ ->]. simpl.
    by rewrite list_lookup_fmap, Hi. }
  destruct (rows p !! i) as [pi|] eqn:Hi; destruct (rows p !! j) as [pj|] eqn:Hj.
  - rewrite (dot_entry _ _ _ i j pi Hs Hi), (dot_entry _ _ _ j i pj Hs Hj);
      try (simpl; unfold nrows; by eapply lookup_lt_Some).
    rewrite (col_transpose _ _ _ Hwf Hi), (col_transpose _ _ _ Hwf Hj).
    f_equal. apply Rsum_zip_with_comm.
  - rewrite (Hout i j pi Hi Hj). by rewrite (Hnone j Hj).
  - rewrite (Hout j i pj Hj Hi). by rewrite (Hnone i Hi).
  - by rewrite (Hnone i Hi), (Hnone j Hj).
Qed.

End SelfSimilarity.

(** ** The size of a score *)

Section ScoreBound.
Context (train_gps_mean train_gps_std : R * R).
Local Open Scope R_scope.

Lemma sum_of_squares_cons (x : R) (a : list R) :
  sum_of_squares (x :: a) = x * x + sum_of_squares a.
Proof. unfold sum_of_squares. simpl. ring. Qed.

Lemma sum_of_squares_nonneg (a : list R) : 0 <= sum_of_squares a.
Proof. apply Rsum_squares_nonneg. Qed.

Lemma square_lt (t u : R) : 0 <= t -> t < u -> t * t < u * u.
Proof. intros. nra. Qed.

Lemma cauchy_schwarz_step (x y S A B : R) :
  0 <= A -> 0 <= B -> S * S <= A * B ->
  (x * y + S) * (x * y + S) <= (x * x + A) * (y * y + B).
Proof.
  intros HA HB HS.
  assert (2 * (x * y * S) <= x * x * B + y * y * A) as Hcross.
  { destruct (Rle_or_lt (2 * (x * y * S)) (x * x * B + y * y * A)) as [H|Hgt];
      [exact H|exfalso].
    assert (0 <= x * x * B + y * y * A) as Ht.
    { pose proof (Rle_0_sqr x). pose proof (Rle_0_sqr y). unfold Rsqr in *. nra. }
    pose proof (square_lt _ _ Ht Hgt) as Hsq.
    pose proof (Rle_0_sqr (x * x * B - y * y * A)) as H3. unfold Rsqr in H3.
    pose proof (Rle_0_sqr (x * y)) as H4. unfold Rsqr in H4.
    pose proof (Rmult_le_compat_l _ _ _ H4 HS) as H5.
    replace ((x * x * B + y * y * A) * (x * x * B + y * y * A))
      with ((x * x * B - y * y * A) * (x * x * B - y * y * A)
            + 4 * (x * y * (x * y) * (A * B))) in Hsq by ring.
    replace (2 * (x * y * S) * (2 * (x * y * S)))
      with (4 * (x * y * (x * y) * (S * S))) in Hsq by ring.
    lra. }
  replace ((x * y + S) * (x * y + S))
    with (x * y * (x * y) + 2 * (x * y * S) + S * S) by ring.
  replace ((x * x + A) * (y * y + B))
    with (x * y * (x * y) + (x * x * B + y * y * A) + A * B) by ring.
  lra.
Qed.

(** The inequality of Cauchy and Schwarz for the dot product of two rows. *)
Lemma cauchy_schwarz (a b : list R) :
  Rsum (zip_with Rmult a b) * Rsum (zip_with Rmult a b)
  <= sum_of_squares a * sum_of_squares b.
Proof.
  revert b. induction a as [|x a IH]; intros b.
  - change (zip_with Rmult [] b) with (@nil R).
    pose proof (sum_of_squares_nonneg b). unfold sum_of_squares at 1. simpl. lra.
  - destruct b as [|y b].
    + change (zip_with Rmult (x :: a) []) with (@nil R).
      pose proof (sum_of_squares_nonneg (x :: a)). unfold sum_of_squares at 2.
      simpl. lra.
    + change (zip_with Rmult (x :: a) (y :: b)) with (x * y :: zip_with Rmult a b).
      rewrite !sum_of_squares_cons.
      change (Rsum (x * y :: zip_with Rmult a b))
        with (x * y + Rsum (zip_with Rmult a b)).
      apply cauchy_schwarz_step;
        [apply sum_of_squares_nonneg | apply sum_of_squares_nonneg | apply IH].
Qed.

Lemma sum_of_squares_normalized (r : list R) :
  nonzero r -> sum_of_squares (map (fun x => x / norm2 r) r) = 1.
Proof.
  intros Hr. pose proof (norm2_normalized r Hr) as Hn.
  set (v := map (fun x => x / norm2 r) r) in *.
  change (norm2 v) with (sqrt (sum_of_squares v)) in Hn.
  pose proof (sum_of_squares_nonneg v) as Hpos.
  rewrite <- (sqrt_sqrt _ Hpos), Hn. lra.
Qed.

Lemma normalized_score_entry (self : Model.t) (kwargs : gmap string array)
    (p e s : matrix R) (i j : nat) (pi ej : list R) :
  Model.normalize_representation (Model.cfg self) = true ->
  Model.prefix_representation train_gps_mean train_gps_std self kwargs = Some p ->
  Model.encoded_candidates train_gps_mean train_gps_std self kwargs = Some e ->
  wf e ->
  Model.similarity_score train_gps_mean train_gps_std self kwargs = Some s ->
  rows p !! i = Some pi ->
  rows e !! j = Some ej ->
  rows s !! i ≫= (fun row => row !! j)
  = Some (Rsum (zip_with Rmult pi (map (fun x => x / norm2 ej) ej))).
Proof.
  intros Hflag Hp He Hwf Hs Hpi Hej.
  unfold Model.similarity_score, Model.candidate_representation in Hs.
  rewrite Hp, He, Hflag in Hs. simpl in Hs.
  assert (wf (normalize_rows e)) as Hwf'.
  { unfold wf, normalize_rows in *. simpl. rewrite Forall_fmap.
    eapply Forall_impl; [exact Hwf|]. intros r Hr. simpl. by rewrite length_map. }
  assert (rows (normalize_rows e) !! j = Some (map (fun x => x / norm2 ej) ej)) as Hj.
  { unfold normalize_rows. simpl. by rewrite list_lookup_fmap, Hej. }
  rewrite (dot_entry _ _ _ i j pi Hs Hpi).
  - by rewrite (col_transpose _ _ _ Hwf' Hj).
  - unfold transpose. simpl. unfold nrows, normalize_rows. simpl.
    rewrite length_map. by eapply lookup_lt_Some.
Qed.

(** X21: With [normalize_representation] set, the score of a prefix against a
    candidate whose encoding is not zero is at most the norm of the prefix
    representation, in absolute value. *)
Theorem normalized_score_bounded_by_prefix_norm (self : Model.t)
    (kwargs : gmap string array) (p e s : matrix R) (i j : nat)
    (pi ej : list R) (x : R) :
  Model.normalize_representation (Model.cfg self) = true ->
  Model.prefix_representation train_gps_mean train_gps_std self kwargs = Some p ->
  Model.encoded_candidates train_gps_mean train_gps_std self kwargs = Some e ->
  wf e ->
  Model.similarity_score train_gps_mean train_gps_std self kwargs = Some s ->
  rows p !! i = Some pi ->
  rows e !! j = Some ej ->
  nonzero ej ->
  rows s !! i ≫= (fun row => row !! j) = Some x ->
  Rabs x <= norm2 pi.
Proof.
  intros Hflag Hp He Hwf Hs Hpi Hej Hnz Hx.
  rewrite (normalized_score_entry self kwargs p e s i j pi ej) in Hx by done.
  injection Hx as <-.
  pose proof (cauchy_schwarz pi (map (fun x => x / norm2 ej) ej)) as Hcs.
  rewrite sum_of_squares_normalized, Rmult_1_r in Hcs by done.
  change (norm2 pi) with (sqrt (sum_of_squares pi)).
  rewrite <- sqrt_Rsqr_abs. apply sqrt_le_1_alt.
  unfold Rsqr. lra.
Qed.

End ScoreBound.

(** ** Coordinate arrays of different shapes *)

Section ShapeMismatch.
Context (train_gps_mean train_gps_std : R * R).

(** X22: The encoder raises when the latitudes and the longitudes do not have
    the same shape. *)
Theorem apply_raises_on_shape_mismatch (self : RecurrentEncoder.t)
    (args : gmap string array) (lat lon : matrix R) :
  args !! "latitude" = Some (Floats lat) ->
  args !! "longitude" = Some (Floats lon) ->
  ncols lat <> ncols lon \/ nrows lat <> nrows lon ->
  RecurrentEncoder.apply train_gps_mean train_gps_std self args = None.
Proof.
  intros Hlat Hlon Hshape. unfold RecurrentEncoder.apply.
  rewrite Hlat, Hlon. simpl.
  destruct (args !! "latitude_mask" ≫= as_ints) as [mask|]; [|done]. simpl_option.
  unfold RecurrentEncoder.stack_channels.
  rewrite decide_False; [done|].
  unfold mmap, transpose, nrows. simpl. rewrite !length_map, !length_seq.
  unfold nrows in Hshape. lia.
Qed.

End ShapeMismatch.

(** ** The time step of the extracted forward state *)

Section ExtractedForwardState.

(** X1: On a rectangular binary mask, the forward component that the encoder
    extracts for an example with [n] valid positions is the forward state
    at the time step of index [n - 2], an index below 0 being read from
    the end as numpy does: the last valid position but one when [n >= 2],
    the last time step of the padded sequence when [n = 1]. *)
Theorem extracted_forward_state (d : nat) (path : list (matrix R))
    (mask : matrix Z) (first last : matrix R) (b : nat) (r : list Z) :
  wf mask ->
  binary mask ->
  (Z.of_nat (ncols mask) < 2 ^ 63)%Z ->
  RecurrentEncoder.path_representation d path
    (RecurrentEncoder.last_id (transpose mask)) = Some (first, last) ->
  rows mask !! b = Some r ->
  exists state, rows last !! b = Some state
    /\ forward_state d path (Zsum r - 2) b = Some state.
Proof.
  intros Hwf Hbin HT Hpr Hr.
  destruct (forward_component_index d path mask first last b r Hwf Hbin HT Hpr Hr)
    as [[state Hstate] Heq].
  exists state. split; [done|]. by rewrite <- Heq.
Qed.

End ExtractedForwardState.

(* ------------------------------------------------------------------ *)
(** * The properties on the small model *)

Section Instances.
Local Open Scope R_scope.
Import Example.

Lemma echo_batchwise : batchwise_rec echo.
Proof.
  intros σ x mask Hσ Hx Hwf. split; [done|]. by intros path [= <-].
Qed.

Lemma no_metadata_batchwise : batchwise_embedder no_metadata.
Proof. intros σ n ctx Hσ Hctx. split; [done|]. by intros es [= <-]. Qed.

Lemma identity_batchwise : batchwise_mlp Some.
Proof. intros σ x Hσ. split; [done|]. by intros y [= <-]. Qed.

Lemma rotation_permutation : [2; 0; 1]%nat ≡ₚ seq 0 3.
Proof. simpl. solve_Permutation. Qed.

(** C4 on the batch of two prefixes and three candidates: the first row
    of the attention matrix sums to 1. *)
(** With the normalisation, the three candidates of the batch have the
    encodings (2, 1), (4, 4) and (6, 5): none is the zero vector. *)
Lemma batch_normalization_defined :
  normalization_defined gps_mean gps_std (model identity_encoder true) batch.
Proof.
  intros _ e He.
  change (Some (Matrix 2 [[(2 - 0) / 1; (1 - 0) / 1]; [(4 - 0) / 1; (4 - 0) / 1];
                          [(6 - 0) / 1; (5 - 0) / 1]]) = Some e) in He.
  injection He as <-.
  repeat constructor; eexists; (split; [by left | lra]).
Qed.

Lemma attention_rows_sum_to_one_witness :
  exists a row,
    Model.similarity gps_mean gps_std (model identity_encoder true) batch = Some a
    /\ rows a !! 0%nat = Some row
    /\ Rsum row = 1.
Proof.
  do 2 eexists. split; [reflexivity|]. split; [reflexivity|].
  eapply (attention_rows_sum_to_one gps_mean gps_std
            (model identity_encoder true) batch).
  - reflexivity.
  - exact (Nat.lt_0_succ 2).
  - exact batch_normalization_defined.
  - apply (list_elem_of_lookup_2 _ 0%nat). reflexivity.
Defined.

(** C4 as stated fails on a batch without candidates: the attention matrix
    has one row, for the one prefix, and no column; the row sums to 0. *)
Lemma attention_row_of_no_candidate :
  Model.similarity gps_mean gps_std (model identity_encoder false)
    batch_without_candidates = Some (Matrix 0 [[]])
  /\ [] ∈ rows (Matrix 0 [[] : list R])
  /\ Rsum [] <> 1.
Proof.
  split; [reflexivity|]. split; [by left|]. simpl. lra.
Qed.

(** C3 on the batch of two prefixes and three candidates, whose
    destinations have the latitudes 2, 3 and 6. *)
Lemma prediction_within_candidate_range_witness :
  exists out row x,
    Model.predict gps_mean gps_std (model identity_encoder true) batch = Some out
    /\ rows out !! 0%nat = Some row
    /\ row !! 0%nat = Some x
    /\ length row = 2%nat
    /\ exists lo hi,
         Rmin_list (col 0 (Matrix 2 [[2; 1]; [3; 4]; [6; 5]])) = Some lo
         /\ Rmax_list (col 0 (Matrix 2 [[2; 1]; [3; 4]; [6; 5]])) = Some hi
         /\ lo <= x <= hi.
Proof.
  do 3 eexists. split; [reflexivity|]. split; [reflexivity|]. split; [reflexivity|].
  eapply (prediction_within_candidate_range gps_mean gps_std
            (model identity_encoder true) batch _ _ _ 0).
  - reflexivity.
  - reflexivity.
  - discriminate.
  - exact batch_normalization_defined.
  - apply (list_elem_of_lookup_2 _ 0%nat). reflexivity.
  - reflexivity.
Defined.

(** C3 as stated fails on a batch without candidates: the prediction for
    the one prefix is (0, 0), and no candidate destination exists whose
    coordinates could bound it. *)
Lemma prediction_of_no_candidate :
  exists out d row x,
    Model.predict gps_mean gps_std (model identity_encoder false)
      batch_without_candidates = Some out
    /\ Model.candidate_destination batch_without_candidates = Some d
    /\ row ∈ rows out
    /\ row !! 0%nat = Some x
    /\ rows d = []
    /\ ~ exists lo hi, Rmin_list (col 0 d) = Some lo
           /\ Rmax_list (col 0 d) = Some hi /\ lo <= x <= hi.
Proof.
  exists (Matrix 2 [[0; 0]]), (Matrix 2 []), [0; 0], 0.
  split; [reflexivity|]. split; [reflexivity|]. split; [by left|].
  split; [reflexivity|]. split; [reflexivity|].
  intros (lo & hi & Hlo & _). discriminate Hlo.
Qed.


(** C5 on the first candidate, whose encoding is [(2 - 0) / 1; (1 - 0) / 1]. *)
Lemma normalized_candidate_has_unit_norm_witness :
  exists c r',
    Model.candidate_representation gps_mean gps_std
      (model identity_encoder true) batch = Some c
    /\ rows c !! 0%nat = Some r' /\ norm2 r' = 1.
Proof.
  eapply (normalized_candidate_has_unit_norm gps_mean gps_std
            (model identity_encoder true) batch _ 0
            [(2 - 0) / 1; (1 - 0) / 1]).
  - reflexivity.
  - reflexivity.
  - reflexivity.
  - exists ((2 - 0) / 1). split; [left | lra].
Defined.

(** C10 on the first prefix, of representation [(5 - 0) / 1; (1 - 0) / 1],
    and the first candidate. *)
Lemma similarity_normalizes_candidates_only_witness :
  exists s,
    Model.similarity_score gps_mean gps_std (model identity_encoder true) batch
      = Some s
    /\ rows s !! 0%nat ≫= (fun row => row !! 0%nat)
       = Some (Rsum (zip_with Rmult [(5 - 0) / 1; (1 - 0) / 1]
                 (map (fun x => x / norm2 [(2 - 0) / 1; (1 - 0) / 1])
                      [(2 - 0) / 1; (1 - 0) / 1])))
    /\ (nonzero [(2 - 0) / 1; (1 - 0) / 1] ->
        norm2 (map (fun x => x / norm2 [(2 - 0) / 1; (1 - 0) / 1])
                   [(2 - 0) / 1; (1 - 0) / 1]) = 1).
Proof.
  eexists. split; [reflexivity|].
  apply (similarity_normalizes_candidates_only gps_mean gps_std
           (model identity_encoder true) batch
           (Matrix 2 [[(5 - 0) / 1; (1 - 0) / 1]; [(7 - 0) / 1; (3 - 0) / 1]])
           (Matrix 2 [[(2 - 0) / 1; (1 - 0) / 1]; [(4 - 0) / 1; (4 - 0) / 1];
                      [(6 - 0) / 1; (5 - 0) / 1]])).
  - reflexivity.
  - reflexivity.
  - reflexivity.
  - by repeat constructor.
  - reflexivity.
  - reflexivity.
  - reflexivity.
Defined.

(** C7 on the mask rows [1,1,1,0,0] and [0,0,0,0,0]. *)
Lemma last_valid_index_in_range_witness :
  (exists i, RecurrentEncoder.last_id
               (transpose (Matrix 5 [[1; 1; 1; 0; 0]; [0; 0; 0; 0; 0]]%Z)) !! 0%nat
             = Some i
     /\ Model.candidate_last (Matrix 5 [[1; 1; 1; 0; 0]; [0; 0; 0; 0; 0]]%Z) !! 0%nat
        = Some i
     /\ i = 2%Z /\ (0 <= i < 5)%Z)
  /\ RecurrentEncoder.last_id
       (transpose (Matrix 5 [[1; 1; 1; 0; 0]; [0; 0; 0; 0; 0]]%Z)) !! 1%nat
     = Some (-1)%Z.
Proof.
  assert (wf (Matrix 5 [[1; 1; 1; 0; 0]; [0; 0; 0; 0; 0]]%Z)) as Hwf
    by (by repeat constructor).
  assert (binary (Matrix 5 [[1; 1; 1; 0; 0]; [0; 0; 0; 0; 0]]%Z)) as Hbin
    by (repeat constructor; auto).
  split.
  - apply (last_valid_index_in_range _ 0 [1; 1; 1; 0; 0]%Z Hwf Hbin);
      [reflexivity | reflexivity | simpl; lia].
  - apply (last_valid_index_in_range _ 1 [0; 0; 0; 0; 0]%Z Hwf Hbin);
      [reflexivity | reflexivity | reflexivity].
Defined.

(** C9 on the batch of two prefixes and three candidates, the candidates
    being rotated. *)
Lemma predict_invariant_under_candidate_order_witness :
  Model.predict gps_mean gps_std (model identity_encoder true)
    (permute_candidates [2; 0; 1]%nat batch)
  = Model.predict gps_mean gps_std (model identity_encoder true) batch.
Proof.
  apply (predict_invariant_under_candidate_order gps_mean gps_std _ _ 3).
  - apply rotation_permutation.
  - intros k v Hk Hprefix. unfold batch in Hk.
    repeat (apply lookup_insert_Some in Hk as [[<- <-]|[_ Hk]];
            [first [discriminate Hprefix | reflexivity]|]).
    by rewrite lookup_empty in Hk.
  - constructor.
  - apply echo_batchwise.
  - apply no_metadata_batchwise.
  - apply identity_batchwise.
Defined.

(** The encoder on the trajectory whose mask is [1,1,1,0,0], with the
    brick whose forward state is the latitude it reads: the representation
    holds the longitude of the first point and the latitude of the second
    point, 20, not that of the last valid point, 30. *)
Lemma encoder_reads_second_valid_point :
  RecurrentEncoder.apply gps_mean gps_std
    (RecurrentEncoder.init identity_encoder) trajectory
  = Some (Matrix 2 [[(1 - 0) / 1; (20 - 0) / 1]]).
Proof. reflexivity. Qed.

(** With [normalize_representation] set, the score of the first prefix
    against the first candidate is larger than 1: it is not the cosine of
    an angle. *)
Lemma similarity_score_exceeds_one :
  exists s x,
    Model.similarity_score gps_mean gps_std (model identity_encoder true) batch
      = Some s
    /\ rows s !! 0%nat ≫= (fun row => row !! 0%nat) = Some x
    /\ 1 < x.
Proof.
  eexists.
  exists ((5 - 0) / 1 * (((2 - 0) / 1) / norm2 [(2 - 0) / 1; (1 - 0) / 1])
          + ((1 - 0) / 1 * (((1 - 0) / 1) / norm2 [(2 - 0) / 1; (1 - 0) / 1]) + 0)).
  split; [reflexivity|]. split; [reflexivity|].
  assert (norm2 [(2 - 0) / 1; (1 - 0) / 1] = sqrt 5) as ->.
  { unfold norm2. f_equal. simpl. lra. }
  assert (0 < sqrt 5) as Hpos by (apply sqrt_lt_R0; lra).
  assert (sqrt 5 < 3) as Hlt.
  { rewrite <- (sqrt_square 3) by lra. apply sqrt_lt_1; lra. }
  assert (/ 3 < / sqrt 5) as Hinv by (apply Rinv_lt_contravar; nra).
  unfold Rdiv. rewrite Rinv_1. nra.
Qed.

Import Cases.

Ltac solve_binary :=
  unfold binary; simpl;
  repeat first [apply Forall_nil | apply Forall_cons; split]; auto.

(** The forward component on the mask row [1,1,1,0,0]: three valid
    positions, time step 3 - 2 = 1. *)
Lemma extracted_forward_state_witness :
  exists state, rows (Matrix 1 [[20]]) !! 0%nat = Some state
    /\ forward_state 1 states (Zsum [1; 1; 1; 0; 0]%Z - 2) 0 = Some state.
Proof.
  apply (extracted_forward_state 1 states mask_of_three (Matrix 1 [[1]])
           (Matrix 1 [[20]]) 0 [1; 1; 1; 0; 0]%Z).
  - by repeat constructor.
  - solve_binary.
  - simpl. lia.
  - reflexivity.
  - reflexivity.
Defined.

Lemma batch_candidate_arrays :
  candidate_arrays batch (Matrix 2 [[1; 1]; [1; 0]; [1; 1]]%Z)
    (Matrix 2 [[1; 2]; [3; 4]; [5; 6]]) (Matrix 2 [[2; 1]; [4; 3]; [6; 5]]).
Proof.
  unfold candidate_arrays.
  split_and!; first [reflexivity | by repeat constructor | by solve_binary | simpl; lia].
Qed.

(** The second candidate of the batch: one valid position, index 0. *)
Lemma candidate_destination_last_valid_point_witness :
  exists d x y, Model.candidate_destination batch = Some d
    /\ [3; 4] !! Z.to_nat (Zsum [1; 0]%Z - 1) = Some x
    /\ [4; 3] !! Z.to_nat (Zsum [1; 0]%Z - 1) = Some y
    /\ rows d !! 1%nat = Some [x; y]
    /\ forall n k, [1; 0]%Z = replicate n 1%Z ++ replicate k 0%Z ->
         Z.to_nat (Zsum [1; 0]%Z - 1) = (n - 1)%nat
         /\ [1; 0]%Z !! (n - 1)%nat = Some 1%Z
         /\ forall t, (n <= t)%nat -> [1; 0]%Z !! t <> Some 1%Z.
Proof.
  apply (candidate_destination_last_valid_point batch _ _ _ 1 [1; 0]%Z [3; 4] [4; 3]
           batch_candidate_arrays); [reflexivity | reflexivity | reflexivity |].
  simpl. lia.
Defined.

Lemma padding_candidate_arrays :
  candidate_arrays batch_with_padding_candidate (Matrix 2 [[1; 1]; [0; 0]]%Z)
    (Matrix 2 [[1; 2]; [3; 4]]) (Matrix 2 [[5; 6]; [7; 8]]).
Proof.
  unfold candidate_arrays.
  split_and!; first [reflexivity | by repeat constructor | by solve_binary | simpl; lia].
Qed.

(** The candidate whose mask is [0,0]: its destination is (4, 8), the
    point at the last time step. *)
Lemma candidate_destination_of_padding_row_witness :
  exists d x y, Model.candidate_destination batch_with_padding_candidate = Some d
    /\ last [3; 4] = Some x /\ last [7; 8] = Some y
    /\ rows d !! 1%nat = Some [x; y].
Proof.
  apply (candidate_destination_of_padding_row batch_with_padding_candidate
           _ _ _ 1 [0; 0]%Z [3; 4] [7; 8] padding_candidate_arrays);
    [simpl; lia | reflexivity | reflexivity | reflexivity | reflexivity].
Defined.

Lemma candidate_destination_without_time_steps_witness :
  Model.candidate_destination batch_without_time_steps = None.
Proof.
  apply (candidate_destination_without_time_steps batch_without_time_steps
           (Matrix 0 [[]]) (Matrix 0 [[]])).
  - reflexivity.
  - reflexivity.
  - by repeat constructor.
  - reflexivity.
  - done.
  - done.
Defined.

Lemma path_representation_defined_witness :
  is_Some (RecurrentEncoder.path_representation 1 states
             (RecurrentEncoder.last_id (transpose mask_of_three))).
Proof.
  apply (path_representation_defined 1 states mask_of_three).
  - by repeat constructor.
  - solve_binary.
  - simpl. lia.
  - reflexivity.
  - repeat constructor.
  - left. simpl. lia.
Defined.

Lemma path_representation_raises_on_padding_row_witness :
  RecurrentEncoder.path_representation 1 [Matrix 2 [[10; 1]]]
    (RecurrentEncoder.last_id (transpose (Matrix 1 [[0]]%Z))) = None.
Proof.
  apply (path_representation_raises_on_padding_row 1 _ (Matrix 1 [[0]]%Z) 0 [0]%Z).
  - by repeat constructor.
  - simpl. lia.
  - reflexivity.
  - reflexivity.
Defined.


(** Without [candidate_longitude] the prediction raises. *)
Lemma predict_requires_declared_inputs_witness :
  Model.predict gps_mean gps_std (Model.init (identity_config false))
    (delete "candidate_longitude" batch) = None.
Proof.
  apply (predict_requires_declared_inputs gps_mean gps_std (identity_config false)
           (delete "candidate_longitude" batch) "candidate_longitude").
  - vm_compute. do 4 right. left.
  - reflexivity.
Defined.

(** A key that is not declared changes nothing. *)
Lemma predict_reads_declared_inputs_only_witness :
  Model.predict gps_mean gps_std (Model.init (identity_config false)) batch
  = Model.predict gps_mean gps_std (Model.init (identity_config false))
      (<["origin_call" := Codes [7; 8]%Z]> batch).
Proof.
  apply (predict_reads_declared_inputs_only gps_mean gps_std (identity_config false)).
  intros name Hname. vm_compute in Hname.
  repeat (apply elem_of_cons in Hname as [->|Hname]; [reflexivity|]).
  by apply elem_of_nil in Hname.
Defined.

(** The prefix encoder reads [origin_call], the candidate encoder does not:
    the prediction raises although the batch holds that key for the
    prefixes and for the candidates. *)
Lemma predict_raises_on_unshared_metadata_witness :
  Model.predict gps_mean gps_std (Model.init mismatched_config)
    (<["origin_call" := Codes [7; 8]%Z]>
       (<["candidate_origin_call" := Codes [7; 8; 9]%Z]> batch)) = None.
Proof.
  apply (predict_raises_on_unshared_metadata gps_mean gps_std mismatched_config _
           "origin_call").
  - by left.
  - apply not_elem_of_nil.
Defined.

Lemma attention_weights_in_unit_interval_witness :
  exists a row w,
    Model.similarity gps_mean gps_std (model identity_encoder true) batch = Some a
    /\ rows a !! 0%nat = Some row /\ row !! 0%nat = Some w /\ 0 <= w <= 1.
Proof.
  do 3 eexists. split; [reflexivity|]. split; [reflexivity|]. split; [reflexivity|].
  eapply (attention_weights_in_unit_interval gps_mean gps_std
            (model identity_encoder true) batch).
  - reflexivity.
  - exact batch_normalization_defined.
  - apply (list_elem_of_lookup_2 _ 0%nat). reflexivity.
  - apply (list_elem_of_lookup_2 _ 0%nat). reflexivity.
Defined.

Lemma similarity_score_defined_iff_witness :
  is_Some (Model.similarity_score gps_mean gps_std (model identity_encoder false) batch)
  <-> 2%nat = 2%nat.
Proof.
  apply (similarity_score_defined_iff gps_mean gps_std (model identity_encoder false)
           batch
           (Matrix 2 [[(5 - 0) / 1; (1 - 0) / 1]; [(7 - 0) / 1; (3 - 0) / 1]])
           (Matrix 2 [[(2 - 0) / 1; (1 - 0) / 1]; [(4 - 0) / 1; (4 - 0) / 1];
                      [(6 - 0) / 1; (5 - 0) / 1]])).
  - reflexivity.
  - reflexivity.
Defined.

(** Two candidates that end at (2, 6): the prediction for the first prefix
    is (2, 6). *)
(** The two candidates that end at the same point have the encodings
    (5, 1) and (6, 9). *)
Lemma one_destination_normalization_defined :
  normalization_defined gps_mean gps_std (model identity_encoder true)
    batch_with_one_destination.
Proof.
  intros _ e He.
  change (Some (Matrix 2 [[(5 - 0) / 1; (1 - 0) / 1]; [(6 - 0) / 1; (9 - 0) / 1]])
          = Some e) in He.
  injection He as <-.
  repeat constructor; eexists; (split; [by left | lra]).
Qed.

Lemma prediction_of_identical_destinations_witness :
  exists out row,
    Model.predict gps_mean gps_std (model identity_encoder true)
      batch_with_one_destination = Some out
    /\ rows out !! 0%nat = Some row
    /\ row = [2; 6].
Proof.
  do 2 eexists. split; [reflexivity|]. split; [reflexivity|].
  eapply (prediction_of_identical_destinations gps_mean gps_std
            (model identity_encoder true) batch_with_one_destination
            _ (Matrix 2 [[2; 6]; [2; 6]])).
  - reflexivity.
  - reflexivity.
  - done.
  - exact one_destination_normalization_defined.
  - intros r Hr. simpl in Hr.
    repeat (apply elem_of_cons in Hr as [->|Hr]; [reflexivity|]).
    by apply elem_of_nil in Hr.
  - apply (list_elem_of_lookup_2 _ 0%nat). reflexivity.
Defined.

Lemma prediction_without_candidates_witness :
  exists out row,
    Model.predict gps_mean gps_std (model identity_encoder false)
      batch_without_candidates = Some out
    /\ rows out !! 0%nat = Some row
    /\ row = [0; 0].
Proof.
  do 2 eexists. split; [reflexivity|]. split; [reflexivity|].
  eapply (prediction_without_candidates gps_mean gps_std
            (model identity_encoder false) batch_without_candidates).
  - reflexivity.
  - reflexivity.
  - reflexivity.
  - apply (list_elem_of_lookup_2 _ 0%nat). reflexivity.
Defined.


Lemma swap_permutation : [1; 0]%nat ≡ₚ seq 0 2.
Proof. simpl. solve_Permutation. Qed.

Lemma batch_prefix_sizes (name : string) (v : array) :
  name ∈ RecurrentEncoder.inputs (Model.prefix_encoder (Model.init (identity_config false))) ->
  batch !! name = Some v -> batch_size v = 2%nat.
Proof.
  intros Hname Hv. vm_compute in Hname.
  repeat (apply elem_of_cons in Hname as [->|Hname];
          [vm_compute in Hv; by injection Hv as <-|]).
  by apply elem_of_nil in Hname.
Qed.

Lemma batch_candidate_sizes (name : string) (v : array) :
  name ∈ RecurrentEncoder.inputs (Model.candidate_encoder (Model.init (identity_config false))) ->
  batch !! String.append "candidate_" name = Some v -> batch_size v = 3%nat.
Proof.
  intros Hname Hv. vm_compute in Hname.
  repeat (apply elem_of_cons in Hname as [->|Hname];
          [vm_compute in Hv; by injection Hv as <-|]).
  by apply elem_of_nil in Hname.
Qed.

(** Two prefixes and three candidates: attention 2 x 3, prediction 2 x 2. *)
Lemma prediction_shape_witness :
  exists out,
    Model.predict gps_mean gps_std (Model.init (identity_config false)) batch = Some out
    /\ wf out /\ nrows out = 2%nat /\ ncols out = 2%nat
    /\ exists a, Model.similarity gps_mean gps_std (Model.init (identity_config false))
                   batch = Some a
         /\ wf a /\ nrows a = 2%nat /\ ncols a = 3%nat.
Proof.
  eexists. split; [reflexivity|].
  apply (prediction_shape gps_mean gps_std (identity_config false) batch 2 3).
  - apply echo_batchwise.
  - apply no_metadata_batchwise.
  - apply identity_batchwise.
  - apply batch_prefix_sizes.
  - apply batch_candidate_sizes.
  - reflexivity.
Defined.

(** The two prefixes swapped: the two predictions are swapped. *)
Lemma predict_follows_prefix_order_witness :
  Model.predict gps_mean gps_std (Model.init (identity_config true))
    (permute_prefixes [1; 0]%nat batch)
  = permute_rows [1; 0]%nat
      <$> Model.predict gps_mean gps_std (Model.init (identity_config true)) batch.
Proof.
  apply (predict_follows_prefix_order gps_mean gps_std (identity_config true)
           [1; 0]%nat 2 batch).
  - apply swap_permutation.
  - intros k v Hk Hprefix. unfold batch in Hk.
    repeat (apply lookup_insert_Some in Hk as [[<- <-]|[_ Hk]];
            [first [discriminate Hprefix | reflexivity]|]).
    by rewrite lookup_empty in Hk.
  - constructor.
  - apply echo_batchwise.
  - apply no_metadata_batchwise.
  - apply identity_batchwise.
Defined.

(** The encoder of state dimension 1 without metadata: the output layer
    is given 2 columns, the first of the declared dimensions. *)
Lemma rec_to_output_input_width_witness :
  wf (Matrix 2 [[(1 - 0) / 1; (20 - 0) / 1]])
  /\ head (rec_to_output_dims 1 [] [500%nat] 100) = Some 2%nat.
Proof.
  apply (rec_to_output_input_width gps_mean gps_std
           (RecurrentEncoder.init identity_encoder) [] [500%nat] 100 trajectory
           (Matrix 2 [[(1 - 0) / 1; (20 - 0) / 1]])).
  - intros x mask path Hx [= <-]. exact Hx.
  - intros ctx es [= <-]. constructor.
  - reflexivity.
Defined.

(** Without [destination_latitude] the cost raises. *)
Lemma cost_requires_declared_inputs_witness :
  cost gps_mean gps_std latitude_gap (Model.init (identity_config false))
    (delete "destination_latitude" cost_batch) = None.
Proof.
  apply (cost_requires_declared_inputs gps_mean gps_std latitude_gap
           (identity_config false) _ "destination_latitude").
  - vm_compute. do 6 right. left.
  - reflexivity.
Defined.

Lemma cost_reads_declared_inputs_only_witness :
  cost gps_mean gps_std latitude_gap (Model.init (identity_config false)) cost_batch
  = cost gps_mean gps_std latitude_gap (Model.init (identity_config false))
      (<["origin_call" := Array (Codes [7; 8]%Z)]> cost_batch).
Proof.
  apply (cost_reads_declared_inputs_only gps_mean gps_std latitude_gap
           (identity_config false)).
  intros name Hname. vm_compute in Hname.
  repeat (apply elem_of_cons in Hname as [->|Hname]; [reflexivity|]).
  by apply elem_of_nil in Hname.
Defined.

(** Two prefixes scored against themselves: the scores (0, 1) and (1, 0)
    are equal. *)
Lemma prefixes_as_candidates_score_symmetric_witness :
  Model.encoded_candidates gps_mean gps_std (Model.init (identity_config false))
    batch_of_own_candidates
  = Some (Matrix 2 [[(5 - 0) / 1; (1 - 0) / 1]; [(7 - 0) / 1; (3 - 0) / 1]])
  /\ exists s,
       Model.similarity_score gps_mean gps_std (Model.init (identity_config false))
         batch_of_own_candidates = Some s
       /\ rows s !! 0%nat ≫= (fun row => row !! 1%nat)
          = rows s !! 1%nat ≫= (fun row => row !! 0%nat).
Proof.
  apply (prefixes_as_candidates_score_symmetric gps_mean gps_std
           (identity_config false) batch_of_own_candidates).
  - reflexivity.
  - reflexivity.
  - intros name Hname. vm_compute in Hname.
    repeat (apply elem_of_cons in Hname as [->|Hname]; [reflexivity|]).
    by apply elem_of_nil in Hname.
  - reflexivity.
  - by repeat constructor.
Defined.


Lemma normalized_score_bounded_by_prefix_norm_witness :
  exists s x,
    Model.similarity_score gps_mean gps_std (model identity_encoder true) batch = Some s
    /\ rows s !! 0%nat ≫= (fun row => row !! 0%nat) = Some x
    /\ Rabs x <= norm2 [(5 - 0) / 1; (1 - 0) / 1].
Proof.
  do 2 eexists. split; [reflexivity|]. split; [reflexivity|].
  eapply (normalized_score_bounded_by_prefix_norm gps_mean gps_std
            (model identity_encoder true) batch
            (Matrix 2 [[(5 - 0) / 1; (1 - 0) / 1]; [(7 - 0) / 1; (3 - 0) / 1]])
            (Matrix 2 [[(2 - 0) / 1; (1 - 0) / 1]; [(4 - 0) / 1; (4 - 0) / 1];
                       [(6 - 0) / 1; (5 - 0) / 1]])
            _ 0 0 _ [(2 - 0) / 1; (1 - 0) / 1]).
  - reflexivity.
  - reflexivity.
  - reflexivity.
  - by repeat constructor.
  - reflexivity.
  - reflexivity.
  - reflexivity.
  - exists ((2 - 0) / 1). split; [left | lra].
  - reflexivity.
Defined.

(** Latitudes over two time steps, longitudes over three. *)
Lemma apply_raises_on_shape_mismatch_witness :
  RecurrentEncoder.apply gps_mean gps_std (RecurrentEncoder.init identity_encoder)
    (<["latitude" := Floats (Matrix 2 [[10; 20]])]>
     (<["longitude" := Floats (Matrix 3 [[1; 2; 3]])]>
     (<["latitude_mask" := Ints (Matrix 2 [[1; 1]]%Z)]> ∅))) = None.
Proof.
  apply (apply_raises_on_shape_mismatch gps_mean gps_std _ _
           (Matrix 2 [[10; 20]]) (Matrix 3 [[1; 2; 3]])).
  - reflexivity.
  - reflexivity.
  - left. simpl. lia.
Defined.


End Instances.
